(** * A FIFO queue on a singly linked list

    Shallow embedding of [c++/Queue_using_LinkedLIst.cpp]: the classes
    [LinkedList] (a node) and [Queue] (front pointer, rear pointer, element
    counter), the methods [front], [size], [pop], [push] and the destructor,
    run against an explicit heap with [new] and [delete]. *)

From stdpp Require Import gmap strings list fin_maps pretty.
From Equations Require Import Equations.
From Equations.Prop Require Import Logic.
From Stdlib Require Import ZArith Lia.

Local Open Scope Z_scope.

(** ** Machine integers

    [int] is 32 bits wide.  Stored values are only copied around, the one
    [int] the program computes with is [Queue::count] ([count++], [count--]).
    Overflowing a signed [int] is undefined in C++; the model takes the
    two's complement wrap-around that the increment compiles to. *)

Definition INT_MIN : Z := -2147483648.
Definition INT_MAX : Z := 2147483647.

Definition wrap32 (z : Z) : Z := (z + 2147483648) mod 4294967296 - 2147483648.

Definition int_range (z : Z) : Prop := INT_MIN <= z <= INT_MAX.

(** ** Heap

    A node address is a [positive]; [nullptr] is [None].  [new] hands out
    [brk] and moves it on, so an address is never handed out twice and names
    one node for the whole run.  [allocated] and [released] log every [new]
    and every [delete] in program order. *)

Abbreviation addr := positive.
Abbreviation pointer := (option addr).

Record LinkedList : Type := mkLinkedList {
  val : Z;
  next : pointer
}.

Record Memory : Type := mkMemory {
  cells : gmap addr LinkedList;
  brk : addr;
  allocated : list addr;
  released : list addr
}.

Record Queue : Type := mkQueue {
  frontNode : pointer;
  rearNode : pointer;
  count : Z
}.

(** The program state: the heap, the one queue object the methods are called
    on, and what has been written to [cout]. *)
Record World : Type := mkWorld {
  mem : Memory;
  self : Queue;
  cout : list string
}.

(** ** State and fault monad

    [None] is a fault: reading, writing or deleting through a pointer that
    does not name a live node. *)

Definition M (A : Type) : Type := World -> option (A * World).

Definition ret {A} (a : A) : M A := fun w => Some (a, w).

Definition bind {A B} (m : M A) (k : A -> M B) : M B :=
  fun w => match m w with
           | Some (a, w') => k a w'
           | None => None
           end.

Declare Scope cpp_scope.
Delimit Scope cpp_scope with cpp.
Notation "x <- m ;; k" := (bind m (fun x => k))
  (at level 100, m at next level, right associativity) : cpp_scope.
Notation "m ;; k" := (bind m (fun _ => k))
  (at level 100, right associativity) : cpp_scope.
Local Open Scope cpp_scope.

Definition fail {A} : M A := fun _ => None.

Definition this : M Queue := fun w => Some (self w, w).

Definition set_self (q : Queue) : M unit :=
  fun w => Some (tt, mkWorld (mem w) q (cout w)).

Definition set_frontNode (p : pointer) : M unit :=
  q <- this ;; set_self (mkQueue p (rearNode q) (count q)).

Definition set_rearNode (p : pointer) : M unit :=
  q <- this ;; set_self (mkQueue (frontNode q) p (count q)).

Definition set_count (n : Z) : M unit :=
  q <- this ;; set_self (mkQueue (frontNode q) (rearNode q) n).

Definition get_mem : M Memory := fun w => Some (mem w, w).

Definition set_mem (m : Memory) : M unit :=
  fun w => Some (tt, mkWorld m (self w) (cout w)).

(** [cout << s] *)
Definition print (s : string) : M unit :=
  fun w => Some (tt, mkWorld (mem w) (self w) (cout w ++ [s])).

(** [new LinkedList(data)]: the constructor stores [data] and a null [next]. *)
Definition new_LinkedList (data : Z) : M addr :=
  m <- get_mem ;;
  let p := brk m in
  set_mem (mkMemory (<[p := mkLinkedList data None]> (cells m))
                    (Pos.succ p) (allocated m ++ [p]) (released m)) ;;
  ret p.

(** [p->val] and [p->next] *)
Definition load (p : addr) : M LinkedList :=
  m <- get_mem ;;
  match cells m !! p with
  | Some nd => ret nd
  | None => fail
  end.

(** [p->next = n] *)
Definition store_next (p : addr) (n : pointer) : M unit :=
  nd <- load p ;;
  m <- get_mem ;;
  set_mem (mkMemory (<[p := mkLinkedList (val nd) n]> (cells m))
                    (brk m) (allocated m) (released m)).

(** [delete p] for a non-null [p] *)
Definition delete_node (p : addr) : M unit :=
  _ <- load p ;;
  m <- get_mem ;;
  set_mem (mkMemory (delete p (cells m)) (brk m) (allocated m)
                    (released m ++ [p])).

(** ** The class Queue *)

Definition empty_message : string := "Queue is empty" +:+ String (Ascii.ascii_of_nat 10) EmptyString.

(** [Queue()] run on a heap where nothing was ever allocated. *)
Definition Queue_ctor : Queue := mkQueue None None 0.

Definition init : World :=
  mkWorld (mkMemory ∅ 1%positive [] []) Queue_ctor [].

Definition front : M Z :=
  q <- this ;;
  match frontNode q with
  | None => print empty_message ;; ret (-1)
  | Some p => nd <- load p ;; ret (val nd)
  end.

Definition size : M Z :=
  q <- this ;; ret (count q).

Definition pop : M Z :=
  q <- this ;;
  match frontNode q with
  | None => print empty_message ;; ret (-1)
  | Some temp =>
      nd <- load temp ;;
      let data := val nd in
      set_frontNode (next nd) ;;
      q' <- this ;;
      match frontNode q' with
      | None => set_rearNode None
      | Some _ => ret tt
      end ;;
      delete_node temp ;;
      q'' <- this ;;
      set_count (wrap32 (count q'' - 1)) ;;
      ret data
  end.

Definition push (data : Z) : M unit :=
  newNode <- new_LinkedList data ;;
  q <- this ;;
  match rearNode q with
  | None =>
      set_rearNode (Some newNode) ;;
      set_frontNode (Some newNode)
  | Some r =>
      store_next r (Some newNode) ;;
      set_rearNode (Some newNode)
  end ;;
  q' <- this ;;
  set_count (wrap32 (count q' + 1)).

(** [~Queue()]: the loop [while (frontNode != nullptr)].  Every round deletes
    a live node or faults, so the number of live nodes bounds the rounds. *)
Equations? destroy_loop (w : World) : option World
  by wf (base.size (cells (mem w))) lt :=
  destroy_loop w with inspect (frontNode (self w)) := {
    | exist _ None _ := Some w
    | exist _ (Some temp) _ with inspect (load temp w) := {
        | exist _ None _ := None
        | exist _ (Some (nd, _)) _
            with inspect ((set_frontNode (next nd) ;; delete_node temp) w) := {
            | exist _ None _ := None
            | exist _ (Some (_, w')) Hdel := destroy_loop w'
          }
      }
  }.
Proof.
  clear destroy_loop.
  cbv beta iota delta [bind set_frontNode delete_node load this set_self
    get_mem set_mem ret fail] in Hdel; simpl in Hdel.
  destruct (cells (mem w) !! temp) as [nd'|] eqn:E; [|discriminate].
  inversion Hdel; subst w'; simpl.
  assert (base.size (cells (mem w)) = S (base.size (delete temp (cells (mem w))))).
  { rewrite <- (insert_delete_id (cells (mem w)) temp nd') at 1 by done.
    apply map_size_insert_None, lookup_delete_eq. }
  lia.
Qed.

Definition destructor : M unit :=
  fun w => match destroy_loop w with
           | Some w' => Some (tt, w')
           | None => None
           end.

(** ** Call sequences

    A client drives the queue through its four public methods; [run] performs
    a sequence of calls and collects what each returned. *)

Inductive call : Type :=
| Push (data : Z)
| Pop
| Front
| Size.

Inductive answer : Type :=
| Void
| Int (z : Z).

Definition invoke (c : call) : M answer :=
  match c with
  | Push data => push data ;; ret Void
  | Pop => z <- pop ;; ret (Int z)
  | Front => z <- front ;; ret (Int z)
  | Size => z <- size ;; ret (Int z)
  end.

Fixpoint run (cs : list call) : M (list answer) :=
  match cs with
  | [] => ret []
  | c :: cs' => a <- invoke c ;; rest <- run cs' ;; ret (a :: rest)
  end.

(** The calls of [main], in order. *)
Definition main_calls : list call :=
  [Push 10; Push 20; Push 30; Front; Size; Pop; Front; Size].

(** ** Walking the chain *)

(** [follow h k p]: the pointer reached from [p] after [k] reads of [->next];
    [None] when a read goes through null or a dead node. *)
Fixpoint follow (h : gmap addr LinkedList) (k : nat) (p : pointer) : option pointer :=
  match k with
  | O => Some p
  | S k' =>
      match p with
      | None => None
      | Some a =>
          match h !! a with
          | Some nd => follow h k' (next nd)
          | None => None
          end
      end
  end.

(** ** Representation invariant

    [chain h p l]: starting at [p], the heap [h] holds the nodes listed in
    [l] (address and stored value), linked in that order and ended by null. *)
Fixpoint chain (h : gmap addr LinkedList) (p : pointer) (l : list (addr * Z)) : Prop :=
  match l with
  | [] => p = None
  | (a, v) :: l' =>
      p = Some a ∧ ∃ nx, h !! a = Some (mkLinkedList v nx) ∧ chain h nx l'
  end.

(** [Rep l w]: the queue object of [w] holds exactly the nodes [l], oldest
    first.  [count] is the length of [l] as an [int]. *)
Record Rep (l : list (addr * Z)) (w : World) : Prop := mkRep {
  rep_chain : chain (cells (mem w)) (frontNode (self w)) l;
  rep_rear : rearNode (self w) = last l.*1;
  rep_dom : ∀ a, is_Some (cells (mem w) !! a) ↔ a ∈ l.*1;
  rep_alloc : allocated (mem w) ≡ₚ released (mem w) ++ l.*1;
  rep_alloc_nodup : NoDup (allocated (mem w));
  rep_fresh : ∀ a, a ∈ allocated (mem w) → (a < brk (mem w))%positive;
  rep_count : count (self w) = wrap32 (Z.of_nat (length l))
}.

(** The states a client can bring about. *)
Definition Reachable (w : World) : Prop :=
  ∃ cs answers, run cs init = Some (answers, w).

(** ** States the methods leave behind *)

(** The state [pop] leaves behind when the front node is [p] holding [nd]. *)
Definition popped (w : World) (p : addr) (nd : LinkedList) : World :=
  mkWorld
    (mkMemory (delete p (cells (mem w))) (brk (mem w)) (allocated (mem w))
              (released (mem w) ++ [p]))
    (mkQueue (next nd)
             (match next nd with None => None | Some _ => rearNode (self w) end)
             (wrap32 (count (self w) - 1)))
    (cout w).

(** The state a call on the empty queue leaves behind: one more line on
    [cout], nothing else touched. *)
Definition complained (w : World) : World :=
  mkWorld (mem w) (self w) (cout w ++ [empty_message]).

(** The state [push] leaves behind when [rearNode] is null. *)
Definition pushed_first (w : World) (data : Z) : World :=
  mkWorld
    (mkMemory (<[brk (mem w) := mkLinkedList data None]> (cells (mem w)))
              (Pos.succ (brk (mem w))) (allocated (mem w) ++ [brk (mem w)])
              (released (mem w)))
    (mkQueue (Some (brk (mem w))) (Some (brk (mem w)))
             (wrap32 (count (self w) + 1)))
    (cout w).

(** ** Counting calls *)

(** How many calls of a sequence are [push]. *)
Fixpoint pushes (cs : list call) : nat :=
  match cs with
  | [] => 0
  | Push _ :: cs' => S (pushes cs')
  | _ :: cs' => pushes cs'
  end.

(** How many calls of a sequence run from [w] are [pop] taking the branch
    that removes a node ([frontNode != nullptr] at the call). *)
Fixpoint successful_pops (cs : list call) (w : World) : nat :=
  match cs with
  | [] => 0
  | c :: cs' =>
      match invoke c w with
      | None => 0
      | Some (_, w') =>
          (match c, frontNode (self w) with
           | Pop, Some _ => 1
           | _, _ => 0
           end + successful_pops cs' w')%nat
      end
  end.

(** [n] calls of [front] and then one [pop]. *)
Fixpoint front_then_pop (n : nat) : M Z :=
  match n with
  | O => pop
  | S n' => front ;; front_then_pop n'
  end.

(** The addresses met walking [->next] from [p], at most [n] of them. *)
Fixpoint walk (n : nat) (h : gmap addr LinkedList) (p : pointer) : list addr :=
  match n, p with
  | S n', Some a =>
      a :: match h !! a with
           | Some nd => walk n' h (next nd)
           | None => []
           end
  | _, _ => []
  end.

(** The nodes of the queue in [w], in order from [frontNode]. *)
Definition nodes_from_front (w : World) : list addr :=
  walk (base.size (cells (mem w))) (cells (mem w)) (frontNode (self w)).

(** ** The queue as a list of values

    What each call answers and leaves behind when the queue is read as the
    list of its stored values, oldest first: the abstraction the invariant
    [Rep] relates the heap to. *)
Definition model_invoke (c : call) (q : list Z) : answer * list Z :=
  match c with
  | Push data => (Void, q ++ [data])
  | Pop => match q with
           | [] => (Int (-1), [])
           | v :: q' => (Int v, q')
           end
  | Front => match q with
             | [] => (Int (-1), [])
             | v :: _ => (Int v, q)
             end
  | Size => (Int (wrap32 (Z.of_nat (length q))), q)
  end.

Fixpoint model_run (cs : list call) (q : list Z) : list answer * list Z :=
  match cs with
  | [] => ([], q)
  | c :: cs' =>
      let (a, q') := model_invoke c q in
      let (rest, q'') := model_run cs' q' in
      (a :: rest, q'')
  end.

(** The queue after [push(-1)] on the fresh queue. *)
Definition holds_minus_one : World :=
  match push (-1) init with
  | Some (_, w) => w
  | None => init
  end.

(** The queue after [push(1); pop()] on the fresh queue: empty again, with
    one node allocated and released. *)
Definition drained : World :=
  match (push 1 ;; pop) init with
  | Some (_, w) => w
  | None => init
  end.

(** The queue after [push(10); push(20)] on the fresh queue. *)
Definition holds_two : World :=
  match (push 10 ;; push 20) init with
  | Some (_, w) => w
  | None => init
  end.

(** The stored values met walking [->next] from [p], at most [n] of them. *)
Fixpoint walk_values (n : nat) (h : gmap addr LinkedList) (p : pointer) : list Z :=
  match n, p with
  | S n', Some a =>
      match h !! a with
      | Some nd => val nd :: walk_values n' h (next nd)
      | None => []
      end
  | _, _ => []
  end.

(** The values held by the queue in [w], in order from [frontNode]. *)
Definition values_from_front (w : World) : list Z :=
  walk_values (base.size (cells (mem w))) (cells (mem w)) (frontNode (self w)).

(** How many calls of a sequence run from [w] are a [pop] or a [front]
    taking the branch [frontNode == nullptr]. *)
Fixpoint empty_calls (cs : list call) (w : World) : nat :=
  match cs with
  | [] => 0
  | c :: cs' =>
      match invoke c w with
      | None => 0
      | Some (_, w') =>
          (match c, frontNode (self w) with
           | Pop, None | Front, None => 1
           | _, _ => 0
           end + empty_calls cs' w')%nat
      end
  end.

(** * The user registry

    Shallow embedding of the first program of
    [c++/StrategyPattern_PaymentGateway.cpp]: the enumeration [Role], the
    classes [Admin], [Moderator] and [User] under [BaseUser], and the
    methods [addNewUser], [removeUser] and [changeRole] of [UserManager].
    A method takes the manager and returns its [bool], the manager it leaves
    and the lines it wrote to [cout].  [viewAllUsers] walks the
    [unordered_map] in an order the language leaves open and is not
    modelled. *)

Module SocialNet.

Inductive Role : Type :=
| ADMIN_ROLE
| MOD_ROLE
| USER_ROLE.

(** An object behind a [shared_ptr<BaseUser>]: its dynamic class and its
    [name] field. *)
Inductive BaseUser : Type :=
| Admin (name : string)
| Moderator (name : string)
| User (name : string).

Definition name (u : BaseUser) : string :=
  match u with
  | Admin n | Moderator n | User n => n
  end.

Definition getRoleName (u : BaseUser) : string :=
  match u with
  | Admin _ => "ADMIN"
  | Moderator _ => "MOD"
  | User _ => "USER"
  end.

Record UserManager : Type := mkUserManager {
  users : gmap string BaseUser;
  adminCount : Z;
  modCount : Z;
  userCount : Z
}.

(** The manager as its in-class initialisers leave it. *)
Definition fresh_manager : UserManager := mkUserManager ∅ 0 0 0.

(** [cout << s << endl] *)
Definition line (s : string) : string := s +:+ String (Ascii.ascii_of_nat 10) EmptyString.

(** The [switch (role)] of [addNewUser] and [changeRole]: one counter goes
    up and the object of the matching class is made. *)
Definition enrol (n : string) (role : Role) (m : UserManager)
  : UserManager * BaseUser :=
  match role with
  | ADMIN_ROLE =>
      (mkUserManager (users m) (wrap32 (adminCount m + 1)) (modCount m)
                     (userCount m), Admin n)
  | MOD_ROLE =>
      (mkUserManager (users m) (adminCount m) (wrap32 (modCount m + 1))
                     (userCount m), Moderator n)
  | USER_ROLE =>
      (mkUserManager (users m) (adminCount m) (modCount m)
                     (wrap32 (userCount m + 1)), User n)
  end.

(** The [if (role == "ADMIN") ... else if (role == "MOD") ... else ...] that
    takes one off the counter of the old role. *)
Definition strike (role : string) (m : UserManager) : UserManager :=
  if bool_decide (role = "ADMIN") then
    mkUserManager (users m) (wrap32 (adminCount m - 1)) (modCount m) (userCount m)
  else if bool_decide (role = "MOD") then
    mkUserManager (users m) (adminCount m) (wrap32 (modCount m - 1)) (userCount m)
  else
    mkUserManager (users m) (adminCount m) (modCount m) (wrap32 (userCount m - 1)).

Definition set_users (us : gmap string BaseUser) (m : UserManager) : UserManager :=
  mkUserManager us (adminCount m) (modCount m) (userCount m).

Definition addNewUser (n : string) (role : Role) (m : UserManager)
  : bool * UserManager * list string :=
  match users m !! n with
  | Some _ => (false, m, [line "User already exists."])
  | None =>
      let (m1, newUser) := enrol n role m in
      (true, set_users (<[n := newUser]> (users m1)) m1,
       [line ("User '" +:+ n +:+ "' added successfully.")])
  end.

Definition removeUser (n : string) (m : UserManager)
  : bool * UserManager * list string :=
  match users m !! n with
  | None => (false, m, [line "User does not exist."])
  | Some u =>
      let role := getRoleName u in
      if bool_decide (role = "ADMIN") && (adminCount m <=? 1) then
        (false, m, [line "Cannot remove the last admin user."])
      else
        let m1 := strike role m in
        (true, set_users (delete n (users m1)) m1,
         [line ("User '" +:+ n +:+ "' removed successfully.")])
  end.

Definition changeRole (n : string) (newRole : Role) (m : UserManager)
  : bool * UserManager * list string :=
  match users m !! n with
  | None => (false, m, [line "User does not exist."])
  | Some u =>
      let currentRole := getRoleName u in
      if match newRole with
         | ADMIN_ROLE => bool_decide (currentRole = "ADMIN")
         | MOD_ROLE => bool_decide (currentRole = "MOD")
         | USER_ROLE => bool_decide (currentRole = "USER")
         end
      then (false, m, [line "User already has the same role."])
      else
        let m1 := strike currentRole m in
        let (m2, newUser) := enrol n newRole m1 in
        (true, set_users (<[n := newUser]> (users m2)) m2,
         [line ("Role changed successfully for user '" +:+ n +:+ "'.")])
  end.

(** A call on the manager, and a sequence of them. *)
Inductive request : Type :=
| AddNewUser (n : string) (role : Role)
| RemoveUser (n : string)
| ChangeRole (n : string) (newRole : Role).

Definition serve (r : request) (m : UserManager)
  : bool * UserManager * list string :=
  match r with
  | AddNewUser n role => addNewUser n role m
  | RemoveUser n => removeUser n m
  | ChangeRole n newRole => changeRole n newRole m
  end.

(** The manager after a sequence of calls. *)
Definition after (rs : list request) (m : UserManager) : UserManager :=
  foldl (fun acc r => (serve r acc).1.2) m rs.

(** The role an object was made for. *)
Definition role_of (u : BaseUser) : Role :=
  match u with
  | Admin _ => ADMIN_ROLE
  | Moderator _ => MOD_ROLE
  | User _ => USER_ROLE
  end.

Definition has_role (r : Role) (u : BaseUser) : bool :=
  match r, u with
  | ADMIN_ROLE, Admin _ | MOD_ROLE, Moderator _ | USER_ROLE, User _ => true
  | _, _ => false
  end.

(** How many stored objects are of role [r]. *)
Definition tally (r : Role) (us : gmap string BaseUser) : nat :=
  length (filter (fun u => has_role r u = true) (map_to_list us).*2).

(** The calls of [main], in order. *)
Definition main_requests : list request :=
  [AddNewUser "Alice" ADMIN_ROLE; AddNewUser "Bob" MOD_ROLE;
   AddNewUser "Charlie" USER_ROLE; RemoveUser "Alice"; RemoveUser "Charlie";
   ChangeRole "Bob" ADMIN_ROLE].

(** The counter kept for a role. *)
Definition counter (r : Role) (m : UserManager) : Z :=
  match r with
  | ADMIN_ROLE => adminCount m
  | MOD_ROLE => modCount m
  | USER_ROLE => userCount m
  end.

Definition weight (r : Role) (u : BaseUser) : nat :=
  if has_role r u then 1%nat else 0%nat.

(** The registry invariant: every object is stored under its own name and
    each counter is the number of objects of its role, as an [int]. *)
Record Sound (m : UserManager) : Prop := mkSound {
  sound_names : ∀ k u, users m !! k = Some u → name u = k;
  sound_counters : ∀ r, counter r m = wrap32 (Z.of_nat (tally r (users m)))
}.

#[global] Instance Role_eq_dec : EqDecision Role.
Proof. solve_decision. Defined.

End SocialNet.

(** * The payment tracker

    Shallow embedding of the second program of
    [c++/StrategyPattern_PaymentGateway.cpp]: [BasePayment] with its classes
    [VisaPayment] and [MasterCardPayment], and [PaymentManager].  The code
    uses the [double] amount only in the test [amount <= 0] and when printing
    it, so the amount is a type parameter with these two operations; the
    number [generateTransactionId] draws from [random_device] is an argument
    of the call.  A [Gateway] argument is one of the two enumerators or some
    other value of the underlying [int], which the [default] arms catch.
    [listAllPayments] walks the [unordered_map] in an order the language
    leaves open and is not modelled. *)

Module PaymentGateway.

Inductive Gateway : Type :=
| VISA
| MASTERCARD.

(** A value of type [Gateway] as a caller can pass it: an enumerator, or a
    value that is none of them (reached by a cast). *)
Inductive GatewayValue : Type :=
| Listed (g : Gateway)
| Unlisted.

Inductive PaymentStatus : Type :=
| PENDING
| PROCESSING
| FAILED
| SUCCESS.

Definition statusToString (st : PaymentStatus) : string :=
  match st with
  | PENDING => "Pending"
  | PROCESSING => "Processing"
  | FAILED => "Failed"
  | SUCCESS => "Success"
  end.

Definition gatewayToString (g : GatewayValue) : string :=
  match g with
  | Listed VISA => "Visa"
  | Listed MASTERCARD => "MasterCard"
  | Unlisted => "Unknown"
  end.

(** [cout << s << endl] *)
Definition line (s : string) : string := s +:+ String (Ascii.ascii_of_nat 10) EmptyString.

(** [prefix + to_string(dis(gen))], [draw] being what [dis(gen)] returned. *)
Definition generateTransactionId (draw : Z) (prefix : string) : string :=
  prefix +:+ pretty draw.

Section Amount.
Context {amount : Type}.
(** [amount <= 0] *)
Context (nonpositive : amount -> bool).
(** [fixed << setprecision(2) << amount] *)
Context (show_amount : amount -> string).

(** An object behind a [shared_ptr<BasePayment>]: its dynamic class and the
    three fields of [BasePayment]. *)
Record BasePayment : Type := mkBasePayment {
  made_for : Gateway;
  amount_of : amount;
  transactionId : string;
  status : PaymentStatus
}.

(** The constructors: the amount is stored, the status is [PENDING] and the
    transaction id is the empty string. *)
Definition VisaPayment (a : amount) : BasePayment :=
  mkBasePayment VISA a "" PENDING.

Definition MasterCardPayment (a : amount) : BasePayment :=
  mkBasePayment MASTERCARD a "" PENDING.

Definition getGatewayName (p : BasePayment) : string :=
  match made_for p with
  | VISA => "VISA"
  | MASTERCARD => "MASTERCARD"
  end.

Definition getAmount (p : BasePayment) : amount := amount_of p.
Definition getTransactionId (p : BasePayment) : string := transactionId p.
Definition getStatus (p : BasePayment) : PaymentStatus := status p.

(** [processPayment] returns the new transaction id, the object it leaves
    and the lines it wrote. *)
Definition processPayment (draw : Z) (p : BasePayment)
  : string * BasePayment * list string :=
  match made_for p with
  | VISA =>
      let id := generateTransactionId draw "VISA_" in
      (id, mkBasePayment (made_for p) (amount_of p) id PROCESSING,
       [line ("Processing Visa payment of $" +:+ show_amount (amount_of p) +:+ "...");
        line ("Visa payment initiated with Transaction ID: " +:+ id)])
  | MASTERCARD =>
      let id := generateTransactionId draw "MC_" in
      (id, mkBasePayment (made_for p) (amount_of p) id PROCESSING,
       [line ("Processing MasterCard payment of $" +:+ show_amount (amount_of p) +:+ "...");
        line ("MasterCard payment initiated with Transaction ID: " +:+ id)])
  end.

Definition printStatusInfo (p : BasePayment) : list string :=
  match made_for p with
  | VISA =>
      [line "=== Visa Payment Status ===";
       line ("Transaction ID: " +:+ transactionId p);
       line ("Amount: $" +:+ show_amount (amount_of p));
       line ("Status: " +:+ statusToString (status p));
       line ("Gateway: " +:+ getGatewayName p);
       line "============================"]
  | MASTERCARD =>
      [line "=== MasterCard Payment Status ===";
       line ("Transaction ID: " +:+ transactionId p);
       line ("Amount: $" +:+ show_amount (amount_of p));
       line ("Status: " +:+ statusToString (status p));
       line ("Gateway: " +:+ getGatewayName p);
       line "==============================="]
  end.

Record PaymentManager : Type := mkPaymentManager {
  payments : gmap string BasePayment
}.

Definition fresh_manager : PaymentManager := mkPaymentManager ∅.

(** The factory: a new object for either enumerator, [nullptr] ([None]) in
    the [default] arm. *)
Definition createPayment (g : GatewayValue) (a : amount) : option BasePayment :=
  match g with
  | Listed VISA => Some (VisaPayment a)
  | Listed MASTERCARD => Some (MasterCardPayment a)
  | Unlisted => None
  end.

Definition startPaymentProcess (g : GatewayValue) (a : amount) (draw : Z)
    (m : PaymentManager) : string * PaymentManager * list string :=
  if nonpositive a then
    ("", m, [line "Error: Invalid payment amount. Amount must be greater than 0."])
  else
    match createPayment g a with
    | None => ("", m, [line "Error: Unsupported payment gateway."])
    | Some payment =>
        let '(transactionId, payment', out) := processPayment draw payment in
        let key := getGatewayName payment' +:+ "_" +:+ transactionId in
        (key, mkPaymentManager (<[key := payment']> (payments m)),
         out ++ [line ("Payment registered with key: " +:+ key)])
    end.

Definition getPaymentStatus (key : string) (m : PaymentManager) : list string :=
  match payments m !! key with
  | Some p => printStatusInfo p
  | None => [line ("Error: No payment found with key '" +:+ key +:+ "'")]
  end.

Definition updatePaymentStatus (key : string) (newStatus : PaymentStatus)
    (m : PaymentManager) : bool * PaymentManager * list string :=
  match payments m !! key with
  | Some _ => (true, m, [line ("Payment status updated for key: " +:+ key)])
  | None =>
      (false, m,
       [line ("Error: Cannot update status. No payment found with key '"
              +:+ key +:+ "'")])
  end.

(** A call on the manager, and the manager after a sequence of calls. *)
Inductive request : Type :=
| StartPaymentProcess (g : GatewayValue) (a : amount) (draw : Z)
| GetPaymentStatus (key : string)
| UpdatePaymentStatus (key : string) (newStatus : PaymentStatus).

Definition serve (r : request) (m : PaymentManager) : PaymentManager :=
  match r with
  | StartPaymentProcess g a draw => (startPaymentProcess g a draw m).1.2
  | GetPaymentStatus _ => m
  | UpdatePaymentStatus key newStatus => (updatePaymentStatus key newStatus m).1.2
  end.

Definition after (rs : list request) (m : PaymentManager) : PaymentManager :=
  foldl (fun acc r => serve r acc) m rs.

(** What every stored payment looks like. *)
Definition Registered (m : PaymentManager) : Prop :=
  ∀ key p, payments m !! key = Some p →
    status p = PROCESSING ∧ nonpositive (amount_of p) = false ∧
    key = getGatewayName p +:+ "_" +:+ transactionId p.
End Amount.

(** Amounts in cents, to run the code on: the payments of [main]. *)
Definition cents_nonpositive (a : Z) : bool := a <=? 0.

Definition cents_show (a : Z) : string :=
  pretty (a / 100) +:+ "." +:+ pretty (a mod 100 / 10) +:+ pretty (a mod 10).

End PaymentGateway.

(** * Proofs *)

Ltac exec :=
  cbv beta iota delta [push pop front size invoke bind ret fail this set_self
    set_frontNode set_rearNode set_count get_mem set_mem print new_LinkedList
    load store_next delete_node]; simpl.

Section ChainLemmas.
Implicit Types (h : gmap addr LinkedList) (l : list (addr * Z)).

Lemma chain_nil_iff h p l : chain h p l → (p = None ↔ l = []).
Proof.
  destruct l as [|[a v] l']; simpl.
  - intros ->. done.
  - intros [-> _]. split; discriminate.
Qed.

Lemma chain_lookup h p l a v :
  chain h p l → (a, v) ∈ l → ∃ nx, h !! a = Some (mkLinkedList v nx).
Proof.
  revert p. induction l as [|[b u] l' IH]; simpl; intros p Hc Hin.
  - by apply elem_of_nil in Hin.
  - destruct Hc as (_ & nx & Hb & Hc').
    apply elem_of_cons in Hin as [[= -> ->]|Hin]; eauto.
Qed.

Lemma chain_insert_other h p l a x :
  a ∉ l.*1 → chain h p l → chain (<[a := x]> h) p l.
Proof.
  revert p. induction l as [|[b u] l' IH]; simpl; intros p Hni Hc; [done|].
  destruct Hc as (-> & nx & Hb & Hc'). apply not_elem_of_cons in Hni as [Hne Hni].
  split; [done|]. exists nx. rewrite lookup_insert_ne by done. auto.
Qed.

Lemma chain_delete_other h p l a :
  a ∉ l.*1 → chain h p l → chain (delete a h) p l.
Proof.
  revert p. induction l as [|[b u] l' IH]; simpl; intros p Hni Hc; [done|].
  destruct Hc as (-> & nx & Hb & Hc'). apply not_elem_of_cons in Hni as [Hne Hni].
  split; [done|]. exists nx. rewrite lookup_delete_ne by done. auto.
Qed.

(** Linking a fresh node [a] behind the last node [r]. *)
Lemma chain_snoc h p l r vr a v :
  chain h p (l ++ [(r, vr)]) → r ∉ l.*1 → a ∉ l.*1 → a ≠ r →
  chain (<[r := mkLinkedList vr (Some a)]> (<[a := mkLinkedList v None]> h))
        p (l ++ [(r, vr); (a, v)]).
Proof.
  revert p. induction l as [|[b u] l' IH]; simpl; intros p Hc Hr Ha Hne.
  - destruct Hc as (-> & nx & Hlk & ->). split; [done|].
    exists (Some a). rewrite lookup_insert_eq. split; [done|]. split; [done|].
    exists None. rewrite lookup_insert_ne by done. by rewrite lookup_insert_eq.
  - destruct Hc as (-> & nx & Hb & Hc').
    apply not_elem_of_cons in Hr as [Hrb Hr].
    apply not_elem_of_cons in Ha as [Hab Ha].
    split; [done|]. exists nx. split; [|by apply IH].
    by rewrite !lookup_insert_ne.
Qed.

(** The last node of a chain has a null [next]. *)
Lemma chain_last_next h p l r vr :
  chain h p (l ++ [(r, vr)]) → r ∉ l.*1 →
  h !! r = Some (mkLinkedList vr None).
Proof.
  revert p. induction l as [|[b u] l' IH]; simpl; intros p Hc Hr.
  - by destruct Hc as (_ & nx & Hlk & ->).
  - destruct Hc as (_ & nx & _ & Hc').
    apply not_elem_of_cons in Hr as [_ Hr]. eauto.
Qed.

Lemma chain_follow h p l k :
  chain h p l → (k <= length l)%nat →
  follow h k p = Some (match drop k l.*1 with [] => None | a :: _ => Some a end).
Proof.
  revert p l. induction k as [|k IH]; intros p l Hc Hk.
  - simpl. rewrite drop_0. destruct l as [|[a v] l']; simpl in *.
    + by subst.
    + by destruct Hc as [-> _].
  - destruct l as [|[a v] l']; simpl in *; [lia|].
    destruct Hc as (-> & nx & -> & Hc'). simpl. apply IH; [done|lia].
Qed.
End ChainLemmas.

Section RepLemmas.
Implicit Types (l : list (addr * Z)) (w : World).

Lemma Rep_init : Rep [] init.
Proof.
  split; simpl; try done.
  - intros a. rewrite lookup_empty. split; [by intros [? ?]|].
    intros H. by apply elem_of_nil in H.
  - constructor.
  - intros a H. by apply elem_of_nil in H.
Qed.

Lemma Rep_nodup l w : Rep l w → NoDup l.*1.
Proof.
  intros R. pose proof (rep_alloc_nodup _ _ R) as Hnd.
  rewrite (rep_alloc _ _ R) in Hnd. by apply NoDup_app in Hnd as (_ & _ & ?).
Qed.

Lemma Rep_below_brk l w a : Rep l w → a ∈ l.*1 → (a < brk (mem w))%positive.
Proof.
  intros R Ha. apply (rep_fresh _ _ R). rewrite (rep_alloc _ _ R).
  apply elem_of_app. by right.
Qed.

Lemma Rep_brk_fresh l w : Rep l w → brk (mem w) ∉ l.*1.
Proof. intros R Ha. apply (Rep_below_brk _ _ _ R) in Ha. lia. Qed.

Lemma Rep_front_nil l w : Rep l w → (frontNode (self w) = None ↔ l = []).
Proof. intros R. apply (chain_nil_iff _ _ _ (rep_chain _ _ R)). Qed.

Lemma Rep_rear_nil l w : Rep l w → (rearNode (self w) = None ↔ l = []).
Proof.
  intros R. rewrite (rep_rear _ _ R), last_None.
  split; [apply fmap_nil_inv|by intros ->].
Qed.

Lemma Rep_size l w : Rep l w → base.size (cells (mem w)) = length l.
Proof.
  intros R. rewrite <- size_dom.
  assert (dom (cells (mem w)) = list_to_set l.*1) as ->.
  { apply set_eq. intros a. rewrite elem_of_dom, elem_of_list_to_set.
    apply (rep_dom _ _ R). }
  rewrite size_list_to_set by (by eapply Rep_nodup). by rewrite length_fmap.
Qed.

(** Two representations of one state list the same nodes. *)
Lemma chain_functional (h : gmap addr LinkedList) p l1 l2 :
  chain h p l1 → chain h p l2 → l1 = l2.
Proof.
  revert p l2. induction l1 as [|[a v] l1 IH]; intros p [|[b u] l2]; simpl.
  - done.
  - intros -> [? _]. discriminate.
  - intros [-> _] ?. discriminate.
  - intros (-> & nx & Ha & Hc1) ([= <-] & nx' & Hb & Hc2).
    rewrite Ha in Hb. injection Hb as <- <-. f_equal. eauto.
Qed.

Lemma Rep_functional l1 l2 w : Rep l1 w → Rep l2 w → l1 = l2.
Proof.
  intros R1 R2. eapply chain_functional; eapply rep_chain; eauto.
Qed.

Lemma push_Rep l w data :
  Rep l w →
  ∃ w', push data w = Some (tt, w') ∧ Rep (l ++ [(brk (mem w), data)]) w'
        ∧ cout w' = cout w.
Proof.
  intros R. pose proof (Rep_brk_fresh _ _ R) as Hfresh.
  pose proof (Rep_nodup _ _ R) as Hnd.
  destruct R as [Hc Hrear Hdom Hal Hand Hfr Hcnt].
  destruct w as [[h b al rel] [fr rr cnt] out]; simpl in *.
  assert (Hal' : al ++ [b] ≡ₚ rel ++ (l ++ [(b, data)]).*1).
  { rewrite fmap_app; simpl. rewrite Hal. by rewrite (assoc_L (++)). }
  assert (Hand' : NoDup (al ++ [b])).
  { apply NoDup_app. split; [done|]. split; [|apply NoDup_singleton].
    intros a Ha Hb. apply list_elem_of_singleton in Hb as ->.
    apply Hfr in Ha. lia. }
  assert (Hfr' : ∀ a, a ∈ al ++ [b] → (a < Pos.succ b)%positive).
  { intros a Ha. apply elem_of_app in Ha as [Ha|Ha].
    - apply Hfr in Ha. lia.
    - apply list_elem_of_singleton in Ha as ->. lia. }
  assert (Hcnt' : wrap32 (cnt + 1) = wrap32 (Z.of_nat (length (l ++ [(b, data)])))).
  { rewrite length_app; simpl. subst cnt. unfold wrap32.
    rewrite Nat2Z.inj_add; simpl.
    replace ((Z.of_nat (length l) + 2147483648) `mod` 4294967296 - 2147483648 + 1 + 2147483648)
      with ((Z.of_nat (length l) + 2147483648) `mod` 4294967296 + 1) by lia.
    rewrite Zplus_mod_idemp_l. f_equal. f_equal. lia. }
  destruct l as [|x l0 _] using rev_ind.
  - (* the queue is empty: both pointers take the new node *)
    simpl in *. subst fr rr. exec. eexists. split; [reflexivity|].
    split; [|done]. split; simpl; try done.
    + split; [done|]. exists None. by rewrite lookup_insert_eq.
    + intros a. rewrite lookup_insert. case_decide as Hab.
      * subst a. split; [intros _; apply list_elem_of_singleton; done|eauto].
      * rewrite Hdom, list_elem_of_singleton.
        split; [intros H; by apply elem_of_nil in H|by intros ->].
  - (* the new node goes behind the rear node *)
    destruct x as [r vr]. rewrite fmap_app in Hrear, Hnd, Hfresh; simpl in *.
    rewrite last_snoc in Hrear. subst rr.
    apply NoDup_app in Hnd as (_ & Hr & _).
    assert (Hrl : r ∉ l0.*1).
    { intros Hin. apply (Hr r Hin). apply list_elem_of_singleton. done. }
    apply not_elem_of_app in Hfresh as [Hbl Hbr].
    assert (Hbne : b ≠ r).
    { intros ->. apply Hbr, list_elem_of_singleton. done. }
    pose proof (chain_last_next _ _ _ _ _ Hc Hrl) as Hlk.
    exec. rewrite lookup_insert_ne by done. rewrite Hlk. simpl.
    eexists. split; [reflexivity|]. split; [|done]. split; simpl; try done.
    + rewrite <- (assoc_L (++)). simpl. by apply chain_snoc.
    + rewrite fmap_app; simpl. by rewrite last_snoc.
    + intros a. rewrite !fmap_app; simpl. rewrite !lookup_insert.
      specialize (Hdom a). rewrite fmap_app in Hdom; simpl in Hdom.
      rewrite !elem_of_app, !list_elem_of_singleton in *.
      destruct (decide (r = a)) as [<-|Hra]; [split; eauto|].
      destruct (decide (b = a)) as [<-|Hba]; [split; eauto|].
      rewrite Hdom. intuition congruence.
Qed.
End RepLemmas.

Section MethodEquations.
Implicit Types (l : list (addr * Z)) (w : World).

Lemma pop_nonempty w p nd :
  frontNode (self w) = Some p → cells (mem w) !! p = Some nd →
  pop w = Some (val nd, popped w p nd).
Proof.
  intros Hf Hlk. unfold popped. destruct w as [[h b al rel] [fr rr cnt] out].
  simpl in *. subst fr. exec. rewrite Hlk. simpl.
  destruct (next nd) as [n|]; simpl; by rewrite Hlk.
Qed.

Lemma pop_empty w :
  frontNode (self w) = None → pop w = Some (-1, complained w).
Proof.
  intros Hf. destruct w as [m [fr rr cnt] out]. simpl in *. subst fr. done.
Qed.

Lemma front_nonempty w p nd :
  frontNode (self w) = Some p → cells (mem w) !! p = Some nd →
  front w = Some (val nd, w).
Proof.
  intros Hf Hlk. destruct w as [[h b al rel] [fr rr cnt] out].
  simpl in *. subst fr. exec. by rewrite Hlk.
Qed.

Lemma front_empty w :
  frontNode (self w) = None → front w = Some (-1, complained w).
Proof.
  intros Hf. destruct w as [m [fr rr cnt] out]. simpl in *. subst fr. done.
Qed.

Lemma size_eq w : size w = Some (count (self w), w).
Proof. done. Qed.

Lemma Rep_complained l w : Rep l w → Rep l (complained w).
Proof. intros [? ? ? ? ? ? ?]. by split. Qed.

Lemma Rep_head l w a v :
  Rep ((a, v) :: l) w →
  frontNode (self w) = Some a ∧
  ∃ nx, cells (mem w) !! a = Some (mkLinkedList v nx).
Proof.
  intros R. destruct (rep_chain _ _ R) as (Hf & nx & Hlk & _). eauto.
Qed.

Lemma Rep_popped l w a v nx :
  Rep ((a, v) :: l) w → cells (mem w) !! a = Some (mkLinkedList v nx) →
  Rep l (popped w a (mkLinkedList v nx)).
Proof.
  intros R Hlk. pose proof (Rep_nodup _ _ R) as Hnd.
  destruct R as [Hc Hrear Hdom Hal Hand Hfr Hcnt].
  simpl in Hc, Hrear, Hdom, Hal, Hcnt, Hnd.
  destruct Hc as (Hf & nx' & Hlk' & Hc). rewrite Hlk in Hlk'.
  injection Hlk' as <-. apply NoDup_cons in Hnd as [Hnotin Hnd].
  split; simpl.
  - by apply chain_delete_other.
  - pose proof (chain_nil_iff _ _ _ Hc) as Hnil.
    destruct nx as [n|].
    + rewrite Hrear. destruct l as [|[c u] l']; [|done].
      destruct Hnil as [_ Hnil]. by specialize (Hnil eq_refl).
    + destruct Hnil as [Hnil _]. by rewrite (Hnil eq_refl).
  - intros c. rewrite lookup_delete. case_decide as Hac.
    + subst c. split; [by intros [? ?]|done].
    + rewrite Hdom, elem_of_cons. intuition congruence.
  - rewrite Hal. rewrite <- (assoc_L (++)). done.
  - done.
  - done.
  - rewrite Hcnt. unfold wrap32.
    replace ((Z.of_nat (S (length l)) + 2147483648) `mod` 4294967296 - 2147483648 - 1 + 2147483648)
      with ((Z.of_nat (S (length l)) + 2147483648) `mod` 4294967296 - 1) by lia.
    rewrite Zminus_mod_idemp_l. f_equal. f_equal. lia.
Qed.

Lemma push_null_rear w data :
  rearNode (self w) = None → push data w = Some (tt, pushed_first w data).
Proof.
  intros Hr. destruct w as [[h b al rel] [fr rr cnt] out]. simpl in *.
  by subst rr.
Qed.
End MethodEquations.

Section Refinement.
Implicit Types (l : list (addr * Z)) (w : World).

Lemma invoke_Rep c l w :
  Rep l w →
  ∃ w' l', invoke c w = Some ((model_invoke c l.*2).1, w') ∧ Rep l' w'
           ∧ l'.*2 = (model_invoke c l.*2).2.
Proof.
  intros R. destruct c as [data| | |].
  - destruct (push_Rep _ _ data R) as (w' & Hp & R' & _).
    exists w', (l ++ [(brk (mem w), data)]).
    cbv beta iota delta [invoke bind ret]. rewrite Hp. simpl.
    split; [done|]. split; [done|]. by rewrite fmap_app.
  - destruct l as [|[a v] l'].
    + exists (complained w), []. cbv beta iota delta [invoke bind ret].
      rewrite pop_empty by (by apply (Rep_front_nil _ _ R)).
      simpl. auto using Rep_complained.
    + destruct (Rep_head _ _ _ _ R) as (Hf & nx & Hlk).
      exists (popped w a (mkLinkedList v nx)), l'.
      cbv beta iota delta [invoke bind ret].
      rewrite (pop_nonempty _ _ _ Hf Hlk). simpl. eauto using Rep_popped.
  - destruct l as [|[a v] l'].
    + exists (complained w), []. cbv beta iota delta [invoke bind ret].
      rewrite front_empty by (by apply (Rep_front_nil _ _ R)).
      simpl. auto using Rep_complained.
    + destruct (Rep_head _ _ _ _ R) as (Hf & nx & Hlk).
      exists w, ((a, v) :: l'). cbv beta iota delta [invoke bind ret].
      rewrite (front_nonempty _ _ _ Hf Hlk). simpl. auto.
  - exists w, l. cbv beta iota delta [invoke bind ret]. rewrite size_eq.
    simpl. rewrite (rep_count _ _ R), length_fmap. auto.
Qed.

Lemma run_Rep cs l w :
  Rep l w →
  ∃ w' l', run cs w = Some ((model_run cs l.*2).1, w') ∧ Rep l' w'
           ∧ l'.*2 = (model_run cs l.*2).2.
Proof.
  revert l w. induction cs as [|c cs IH]; intros l w R.
  - exists w, l. auto.
  - destruct (invoke_Rep c _ _ R) as (w1 & l1 & Hi & R1 & Hl1).
    destruct (IH _ _ R1) as (w2 & l2 & Hr & R2 & Hl2).
    exists w2, l2. simpl. cbv beta iota delta [bind ret].
    rewrite Hi, Hr. rewrite Hl1 in *.
    destruct (model_invoke c l.*2) as [a q']; simpl in *.
    destruct (model_run cs q') as [rest q'']; simpl in *. auto.
Qed.

(** Every call sequence runs to completion from the fresh queue. *)
Lemma run_total cs : ∃ answers w l, run cs init = Some (answers, w) ∧ Rep l w.
Proof.
  destruct (run_Rep cs _ _ Rep_init) as (w & l & Hr & R & _). eauto.
Qed.

Lemma Reachable_Rep w : Reachable w → ∃ l, Rep l w.
Proof.
  intros (cs & answers & Hr).
  destruct (run_Rep cs _ _ Rep_init) as (w' & l & Hr' & R & _).
  rewrite Hr in Hr'. injection Hr' as _ <-. eauto.
Qed.

(** Every node of the queue is one more push or one successful pop less. *)
Lemma run_accounting cs l w answers w' l' :
  Rep l w → run cs w = Some (answers, w') → Rep l' w' →
  (length l' + successful_pops cs w = length l + pushes cs)%nat.
Proof.
  revert l w answers. induction cs as [|c cs IH]; intros l w answers R Hr R'.
  - injection Hr as _ <-. rewrite (Rep_functional _ _ _ R R'). simpl. lia.
  - destruct (invoke_Rep c _ _ R) as (w1 & l1 & Hi & R1 & Hl1).
    simpl in Hr. cbv beta iota delta [bind ret] in Hr. rewrite Hi in Hr.
    destruct (run cs w1) as [[rest w2]|] eqn:Hr1; [|discriminate].
    injection Hr as _ <-. specialize (IH _ _ _ R1 Hr1 R').
    simpl. rewrite Hi.
    assert (length l1 = length l1.*2) as Hlen by (by rewrite length_fmap).
    rewrite Hl1 in Hlen. pose proof (Rep_front_nil _ _ R) as Hnil.
    destruct c as [data| | |]; simpl in *.
    + rewrite length_app, length_fmap in Hlen. simpl in Hlen.
      destruct (frontNode (self w)); lia.
    + destruct l as [|[a v] l0]; simpl in *.
      * destruct Hnil as [_ Hnil]. rewrite (Hnil eq_refl). lia.
      * destruct (frontNode (self w)) eqn:Hf.
        -- rewrite length_fmap in Hlen. lia.
        -- destruct Hnil as [Hnil _]. by specialize (Hnil eq_refl).
    + destruct l as [|[a v] l0]; simpl in *;
        try rewrite length_fmap in Hlen; destruct (frontNode (self w)); lia.
    + rewrite length_fmap in Hlen. destruct (frontNode (self w)); lia.
Qed.
End Refinement.

Section ModelLemmas.
Lemma model_run_app cs1 cs2 q :
  model_run (cs1 ++ cs2) q =
  ((model_run cs1 q).1 ++ (model_run cs2 (model_run cs1 q).2).1,
   (model_run cs2 (model_run cs1 q).2).2).
Proof.
  revert q. induction cs1 as [|c cs1 IH]; intros q; simpl.
  - by destruct (model_run cs2 q).
  - destruct (model_invoke c q) as [a q']. rewrite IH.
    by destruct (model_run cs1 q').
Qed.

Lemma model_run_pushes vs q :
  model_run (Push <$> vs) q = (replicate (length vs) Void, q ++ vs).
Proof.
  revert q. induction vs as [|v vs IH]; intros q; simpl.
  - by rewrite app_nil_r.
  - rewrite IH. by rewrite <- (assoc_L (++)).
Qed.

Lemma model_run_pops q :
  model_run (replicate (length q) Pop) q = (Int <$> q, []).
Proof. induction q as [|v q IH]; simpl; [done|]. by rewrite IH. Qed.
End ModelLemmas.

Section Wrap.
Lemma wrap32_id z : INT_MIN <= z <= INT_MAX → wrap32 z = z.
Proof.
  unfold INT_MIN, INT_MAX, wrap32. intros Hz.
  rewrite Z.mod_small by lia. lia.
Qed.

Lemma wrap32_high z :
  INT_MAX < z < 4294967296 → wrap32 z = z - 4294967296.
Proof.
  unfold INT_MAX, wrap32. intros Hz.
  replace (z + 2147483648) with (z - 2147483648 + 1 * 4294967296) by lia.
  rewrite Z_mod_plus_full, Z.mod_small by lia. lia.
Qed.

Lemma wrap32_pos z :
  0 <= z < 4294967296 → 0 < wrap32 z → z <= INT_MAX ∧ wrap32 z = z.
Proof.
  intros Hz Hpos. destruct (decide (z <= INT_MAX)) as [Hle|Hgt].
  - split; [done|]. apply wrap32_id. unfold INT_MIN, INT_MAX in *. lia.
  - rewrite wrap32_high in Hpos by lia. lia.
Qed.

Lemma wrap32_zero z : 0 <= z < 4294967296 → wrap32 z = 0 → z = 0.
Proof.
  intros Hz H0. destruct (decide (z <= INT_MAX)) as [Hle|Hgt].
  - rewrite wrap32_id in H0; [done|]. unfold INT_MIN, INT_MAX in *. lia.
  - rewrite wrap32_high in H0 by lia. lia.
Qed.

Lemma wrap32_succ z : wrap32 (wrap32 z + 1) = wrap32 (z + 1).
Proof.
  unfold wrap32.
  replace ((z + 2147483648) `mod` 4294967296 - 2147483648 + 1 + 2147483648)
    with ((z + 2147483648) `mod` 4294967296 + 1) by lia.
  rewrite Zplus_mod_idemp_l. f_equal. f_equal. lia.
Qed.

Lemma wrap32_pred z : wrap32 (wrap32 z - 1) = wrap32 (z - 1).
Proof.
  unfold wrap32.
  replace ((z + 2147483648) `mod` 4294967296 - 2147483648 - 1 + 2147483648)
    with ((z + 2147483648) `mod` 4294967296 - 1) by lia.
  rewrite Zminus_mod_idemp_l. f_equal. f_equal. lia.
Qed.

Lemma wrap32_range z : INT_MIN <= wrap32 z <= INT_MAX.
Proof.
  unfold wrap32, INT_MIN, INT_MAX.
  pose proof (Z.mod_pos_bound (z + 2147483648) 4294967296). lia.
Qed.
End Wrap.

Section ManyPushes.
Lemma pushes_replicate n data : pushes (replicate n (Push data)) = n.
Proof. induction n as [|n IH]; simpl; [done|]. by rewrite IH. Qed.

Lemma successful_pops_replicate n data w :
  successful_pops (replicate n (Push data)) w = 0%nat.
Proof.
  revert w. induction n as [|n IH]; intros w; [done|].
  cbn [replicate successful_pops].
  destruct (invoke (Push data) w) as [[a w']|]; [|done]. by rewrite IH.
Qed.

(** [n] pushes on the fresh queue leave [n] nodes. *)
Lemma run_replicate_push n data :
  ∃ answers w l,
    run (replicate n (Push data)) init = Some (answers, w) ∧ Rep l w
    ∧ length l = n.
Proof.
  destruct (run_total (replicate n (Push data))) as (answers & w & l & Hr & R).
  exists answers, w, l. split; [done|]. split; [done|].
  pose proof (run_accounting _ _ _ _ _ _ Rep_init Hr R) as Hacc.
  rewrite pushes_replicate, successful_pops_replicate in Hacc.
  simpl in Hacc. lia.
Qed.

Lemma Rep_two_ends l w :
  Rep l w → (2 <= length l)%nat → frontNode (self w) ≠ rearNode (self w).
Proof.
  intros R Hlen. pose proof (Rep_nodup _ _ R) as Hnd.
  destruct l as [|[a v] [|[b u] l']]; simpl in Hlen; try lia.
  destruct (rep_chain _ _ R) as [Hf _]. rewrite Hf, (rep_rear _ _ R).
  simpl in Hnd. apply NoDup_cons in Hnd as [Hnotin _].
  change (((a, v) :: (b, u) :: l').*1) with (a :: ((b, u) :: l').*1).
  rewrite last_cons.
  destruct (last ((b, u) :: l').*1) as [c|] eqn:Hlast;
    [|by apply last_None in Hlast].
  intros [= ->]. apply Hnotin. by apply last_Some_elem_of.
Qed.
End ManyPushes.

Section Teardown.
Implicit Types (l : list (addr * Z)) (w : World).

(** One round of the destructor's loop. *)
Lemma destroy_loop_body w :
  destroy_loop w =
  match frontNode (self w) with
  | None => Some w
  | Some temp =>
      match load temp w with
      | None => None
      | Some (nd, _) =>
          match (set_frontNode (next nd) ;; delete_node temp) w with
          | None => None
          | Some (_, w') => destroy_loop w'
          end
      end
  end.
Proof.
  funelim (destroy_loop w);
    repeat match goal with
           | E : ?x = Some _ |- context [?x] => rewrite E
           | E : ?x = None |- context [?x] => rewrite E
           end; reflexivity.
Qed.

Lemma chain_walk (h : gmap addr LinkedList) p l n :
  chain h p l → (length l <= n)%nat → walk n h p = l.*1.
Proof.
  revert p n. induction l as [|[a v] l IH]; simpl; intros p n Hc Hn.
  - subst p. by destruct n.
  - destruct Hc as (-> & nx & Hlk & Hc). destruct n as [|n]; [lia|].
    simpl. rewrite Hlk. simpl. f_equal. apply IH; [done|lia].
Qed.

(** The loop deletes the nodes of a well-formed chain front to back and
    stops with an empty heap; it reads neither [rearNode] nor [count]. *)
Lemma destroy_loop_chain l w :
  chain (cells (mem w)) (frontNode (self w)) l →
  (∀ a, is_Some (cells (mem w) !! a) ↔ a ∈ l.*1) → NoDup l.*1 →
  ∃ w', destroy_loop w = Some w' ∧
    cells (mem w') = ∅ ∧ released (mem w') = released (mem w) ++ l.*1 ∧
    allocated (mem w') = allocated (mem w) ∧ brk (mem w') = brk (mem w) ∧
    frontNode (self w') = None ∧ rearNode (self w') = rearNode (self w) ∧
    count (self w') = count (self w) ∧ cout w' = cout w.
Proof.
  revert w. induction l as [|[a v] l IH]; intros w Hc Hdom Hnd.
  - simpl in Hc. exists w. rewrite destroy_loop_body, Hc.
    split; [done|]. rewrite app_nil_r. split; [|done].
    apply map_eq. intros a. rewrite lookup_empty.
    destruct (cells (mem w) !! a) eqn:E; [|done].
    assert (a ∈ []) as Hin by (apply Hdom; eauto). by apply elem_of_nil in Hin.
  - simpl in Hc, Hdom, Hnd. destruct Hc as (Hf & nx & Hlk & Hc).
    apply NoDup_cons in Hnd as [Hnotin Hnd].
    set (w1 := mkWorld
                 (mkMemory (delete a (cells (mem w))) (brk (mem w))
                    (allocated (mem w)) (released (mem w) ++ [a]))
                 (mkQueue nx (rearNode (self w)) (count (self w)))
                 (cout w)).
    assert (Hstep : destroy_loop w = destroy_loop w1).
    { rewrite destroy_loop_body, Hf.
      destruct w as [[h b al rel] [fr rr cnt] out]; simpl in *.
      cbv beta iota delta [load bind get_mem ret fail set_frontNode this
        set_self delete_node set_mem]; simpl.
      by rewrite Hlk. }
    destruct (IH w1) as (w' & Hd & Hcells & Hrel & ? & ? & ? & ? & ? & ?).
    + by apply chain_delete_other.
    + intros c. simpl. rewrite lookup_delete. case_decide as Hac.
      * subst c. split; [by intros [? ?]|done].
      * rewrite Hdom, elem_of_cons. intuition congruence.
    + done.
    + exists w'. rewrite Hstep. split; [done|]. split; [done|].
      split; [|done]. rewrite Hrel. simpl. by rewrite <- (assoc_L (++)).
Qed.
End Teardown.

(** The answers [main] prints, as its comments expect them. *)
Example main_answers :
  fst <$> run main_calls init
  = Some [Void; Void; Void; Int 10; Int 3; Int 10; Int 20; Int 2].
Proof. reflexivity. Qed.

(** Pushing 10, 20, popping once, pushing 30 and draining. *)
Example interleaving :
  fst <$> run [Push 10; Push 20; Pop; Push 30; Pop; Pop; Pop; Size] init
  = Some [Void; Void; Int 10; Void; Int 20; Int 30; Int (-1); Int 0].
Proof. reflexivity. Qed.

(** * The claims *)

(** C1. FIFO order: on every empty queue, the fresh one or one drained by
    earlier calls, pushing [v1, ..., vn] and popping [n] times runs to
    completion, the pops return [v1, ..., vn] in that order, and the queue is
    empty again. *)
Theorem fifo_order (w : World) (vs : list Z) :
  Reachable w → frontNode (self w) = None →
  ∃ w', run ((Push <$> vs) ++ replicate (length vs) Pop) w
        = Some (replicate (length vs) Void ++ (Int <$> vs), w')
        ∧ frontNode (self w') = None.
Proof.
  intros HR Hf. destruct (Reachable_Rep _ HR) as (l & R).
  apply (Rep_front_nil _ _ R) in Hf. subst l.
  destruct (run_Rep ((Push <$> vs) ++ replicate (length vs) Pop) _ _ R)
    as (w' & l' & Hr & R' & Hl).
  exists w'. simpl in Hr, Hl.
  rewrite model_run_app, model_run_pushes in Hr, Hl. simpl in Hr, Hl.
  rewrite model_run_pops in Hr, Hl. simpl in Hr, Hl. split; [done|].
  apply (Rep_front_nil _ _ R'). by apply fmap_nil_inv in Hl.
Qed.

Lemma fifo_order_witness :
  (Reachable drained ∧ frontNode (self drained) = None) ∧
  ∃ w', run ((Push <$> [2; 3]) ++ replicate (length [2; 3]) Pop) drained
        = Some (replicate (length [2; 3]) Void ++ (Int <$> [2; 3]), w')
        ∧ frontNode (self w') = None.
Proof.
  assert (HR : Reachable drained)
    by (exists [Push 1; Pop], [Void; Int 1]; reflexivity).
  assert (Hf : frontNode (self drained) = None) by reflexivity.
  split; [auto | apply (fifo_order drained [2; 3] HR Hf)].
Defined.

(** C2, as written, fails: on the empty queue [pop] and [front] do not
    fail, they answer the [int] [-1], and that is the very answer the same
    calls give on the queue holding the stored value [-1]. *)
Lemma empty_answer_overlaps_values :
  frontNode (self init) = None ∧ frontNode (self holds_minus_one) ≠ None ∧
  fst <$> pop init = Some (-1) ∧ fst <$> pop holds_minus_one = Some (-1) ∧
  fst <$> front init = Some (-1) ∧ fst <$> front holds_minus_one = Some (-1).
Proof. repeat split; try reflexivity. discriminate. Qed.

(** C2, amended. On a queue with no elements [pop] and [front] do not fail:
    each returns the [int] [-1], a value of the stored-value domain, and
    appends the line "Queue is empty" to [cout]. *)
Theorem empty_queue_answer (w : World) :
  frontNode (self w) = None →
  pop w = Some (-1, complained w) ∧ front w = Some (-1, complained w) ∧
  int_range (-1) ∧ cout (complained w) = cout w ++ [empty_message].
Proof.
  intros Hf. rewrite pop_empty, front_empty by done.
  repeat split; unfold INT_MIN, INT_MAX; lia.
Qed.

Lemma empty_queue_answer_witness :
  frontNode (self init) = None ∧
  pop init = Some (-1, complained init) ∧
  front init = Some (-1, complained init) ∧
  int_range (-1) ∧ cout (complained init) = cout init ++ [empty_message].
Proof. split; [reflexivity | apply (empty_queue_answer init); reflexivity]. Defined.

(** C3, as written, fails: after 2^31 pushes and no pop, [size] returns
    [INT_MIN], not the 2^31 the calls add up to. *)
Lemma size_wraps_after_many_pushes :
  let cs := replicate (Z.to_nat 2147483648) (Push 0) in
  ∃ answers w,
    run cs init = Some (answers, w) ∧
    Z.of_nat (pushes cs) - Z.of_nat (successful_pops cs init) = 2147483648 ∧
    fst <$> size w = Some (-2147483648).
Proof.
  intros cs. unfold cs.
  destruct (run_replicate_push (Z.to_nat 2147483648) 0)
    as (answers & w & l & Hr & R & Hlen).
  exists answers, w. split; [exact Hr|].
  rewrite pushes_replicate, successful_pops_replicate. split.
  - rewrite Z2Nat.id by lia. reflexivity.
  - rewrite size_eq. cbn [fmap option_fmap option_map fst].
    rewrite (rep_count _ _ R), Hlen, Z2Nat.id by lia. reflexivity.
Qed.

(** C3, amended. Size accounting: after any sequence of pushes and pops
    (and [front], [size] calls) on the fresh queue whose pushes exceed its
    successful pops by at most [INT_MAX], [size] returns the number of
    pushes minus the number of successful pops, and that is not negative. *)
Theorem size_accounting (cs : list call) :
  Z.of_nat (pushes cs) - Z.of_nat (successful_pops cs init) <= INT_MAX →
  ∃ answers w,
    run cs init = Some (answers, w) ∧
    size w = Some (Z.of_nat (pushes cs) - Z.of_nat (successful_pops cs init), w) ∧
    0 <= Z.of_nat (pushes cs) - Z.of_nat (successful_pops cs init).
Proof.
  intros Hbound. destruct (run_total cs) as (answers & w & l & Hr & R).
  pose proof (run_accounting _ _ _ _ _ _ Rep_init Hr R) as Hacc.
  simpl in Hacc. exists answers, w. split; [done|].
  assert (Hd : Z.of_nat (pushes cs) - Z.of_nat (successful_pops cs init)
               = Z.of_nat (length l)) by lia.
  rewrite Hd in *. split; [|lia].
  rewrite size_eq, (rep_count _ _ R), wrap32_id; [done|].
  unfold INT_MIN, INT_MAX in *. lia.
Qed.

Lemma size_accounting_witness :
  let cs := [Push 10; Push 20; Pop; Pop; Pop; Push 30; Size] in
  Z.of_nat (pushes cs) - Z.of_nat (successful_pops cs init) <= INT_MAX ∧
  ∃ answers w,
    run cs init = Some (answers, w) ∧
    size w = Some (Z.of_nat (pushes cs) - Z.of_nat (successful_pops cs init), w) ∧
    0 <= Z.of_nat (pushes cs) - Z.of_nat (successful_pops cs init).
Proof.
  intros cs. split.
  - vm_compute. discriminate.
  - apply (size_accounting cs). vm_compute. discriminate.
Defined.

(** C4, as written, fails: after 2^32 pushes [count] is back at [0] while
    [frontNode] points at the first of 2^32 nodes. *)
Lemma count_zero_on_nonempty_queue :
  let cs := replicate (Z.to_nat 4294967296) (Push 0) in
  ∃ answers w,
    run cs init = Some (answers, w) ∧
    count (self w) = 0 ∧ frontNode (self w) ≠ None.
Proof.
  intros cs. unfold cs.
  destruct (run_replicate_push (Z.to_nat 4294967296) 0)
    as (answers & w & l & Hr & R & Hlen).
  exists answers, w. split; [exact Hr|]. split.
  - rewrite (rep_count _ _ R), Hlen, Z2Nat.id by lia. reflexivity.
  - intros Hf. apply (Rep_front_nil _ _ R) in Hf. subst l.
    cbn [length] in Hlen. lia.
Qed.

(** C4, amended. Emptiness invariant: in every state reachable from the
    fresh queue, [frontNode] is null if and only if [rearNode] is null, a
    null [frontNode] comes with [count == 0], and while fewer than 2^32 nodes
    are held [count == 0] comes with a null [frontNode]. *)
Theorem emptiness_invariant (w : World) :
  Reachable w →
  (frontNode (self w) = None ↔ rearNode (self w) = None) ∧
  (frontNode (self w) = None → count (self w) = 0) ∧
  (Z.of_nat (base.size (cells (mem w))) < 4294967296 →
   count (self w) = 0 → frontNode (self w) = None).
Proof.
  intros HR. destruct (Reachable_Rep _ HR) as (l & R).
  rewrite (Rep_front_nil _ _ R), (Rep_rear_nil _ _ R), (Rep_size _ _ R),
    (rep_count _ _ R).
  split; [done|]. split.
  - by intros ->.
  - intros Hlt H0. apply wrap32_zero in H0; [|lia].
    destruct l; [done|]. simpl in H0. lia.
Qed.

Lemma emptiness_invariant_witness :
  Reachable holds_two ∧
  (frontNode (self holds_two) = None ↔ rearNode (self holds_two) = None) ∧
  (frontNode (self holds_two) = None → count (self holds_two) = 0) ∧
  (Z.of_nat (base.size (cells (mem holds_two))) < 4294967296 →
   count (self holds_two) = 0 → frontNode (self holds_two) = None).
Proof.
  assert (HR : Reachable holds_two)
    by (exists [Push 10; Push 20], [Void; Void]; reflexivity).
  split; [exact HR | apply (emptiness_invariant holds_two HR)].
Defined.

(** C5, as written, fails: after 2^32 + 1 pushes [count] is [1], and the
    [count - 1 = 0] steps from [frontNode] end at the first node, not at
    the node [rearNode] points to. *)
Lemma chain_longer_than_count :
  let cs := replicate (Z.to_nat 4294967297) (Push 0) in
  ∃ answers w,
    run cs init = Some (answers, w) ∧ 0 < count (self w) ∧
    follow (cells (mem w)) (Z.to_nat (count (self w) - 1)) (frontNode (self w))
      ≠ Some (rearNode (self w)).
Proof.
  intros cs. unfold cs.
  destruct (run_replicate_push (Z.to_nat 4294967297) 0)
    as (answers & w & l & Hr & R & Hlen).
  exists answers, w. split; [exact Hr|].
  assert (Hcnt : count (self w) = 1).
  { rewrite (rep_count _ _ R), Hlen, Z2Nat.id by lia. reflexivity. }
  rewrite Hcnt. split; [lia|].
  change (Z.to_nat (1 - 1)) with 0%nat. cbn [follow].
  intros [= Heq]. revert Heq. apply (Rep_two_ends _ _ R). lia.
Qed.

(** C5, amended. Chain structure: in every state reachable from the fresh
    queue with [count > 0] and fewer than 2^32 nodes held, following [next]
    from [frontNode] reaches the node of [rearNode] after exactly
    [count - 1] steps and not before, and that node's [next] is null. *)
Theorem chain_invariant (w : World) :
  Reachable w → 0 < count (self w) →
  Z.of_nat (base.size (cells (mem w))) < 4294967296 →
  ∃ r nd,
    rearNode (self w) = Some r ∧
    follow (cells (mem w)) (Z.to_nat (count (self w) - 1)) (frontNode (self w))
      = Some (Some r) ∧
    (∀ k, (k < Z.to_nat (count (self w) - 1))%nat →
          follow (cells (mem w)) k (frontNode (self w)) ≠ Some (Some r)) ∧
    cells (mem w) !! r = Some nd ∧ next nd = None.
Proof.
  intros HR Hpos Hlt. destruct (Reachable_Rep _ HR) as (l & R).
  pose proof (Rep_nodup _ _ R) as Hnd.
  rewrite (Rep_size _ _ R) in Hlt. rewrite (rep_count _ _ R) in *.
  destruct (wrap32_pos (Z.of_nat (length l))) as [Hmax Hid]; [lia|done|].
  rewrite Hid in *.
  destruct l as [|[r vr] l0 _] using rev_ind; [simpl in Hpos; lia|].
  rewrite fmap_app in Hnd. simpl in Hnd.
  apply NoDup_app in Hnd as (Hnd0 & Hdisj & _).
  assert (Hrl : r ∉ l0.*1).
  { intros Hin. apply (Hdisj r Hin). by apply list_elem_of_singleton. }
  pose proof (chain_last_next _ _ _ _ _ (rep_chain _ _ R) Hrl) as Hlk.
  assert (Hsteps : Z.to_nat (Z.of_nat (length (l0 ++ [(r, vr)])) - 1) = length l0).
  { rewrite length_app. simpl. lia. }
  rewrite Hsteps.
  exists r, (mkLinkedList vr None).
  split; [rewrite (rep_rear _ _ R), fmap_app; simpl; by rewrite last_snoc|].
  split.
  { rewrite (chain_follow _ _ _ _ (rep_chain _ _ R))
      by (rewrite length_app; simpl; lia).
    rewrite fmap_app. simpl.
    rewrite drop_app_length' by (by rewrite length_fmap). done. }
  split; [|done].
  intros k Hk.
  rewrite (chain_follow _ _ _ _ (rep_chain _ _ R))
    by (rewrite length_app; simpl; lia).
  rewrite fmap_app. simpl.
  assert (Hk' : (k < length l0.*1)%nat) by (by rewrite length_fmap).
  destruct (lookup_lt_is_Some_2 _ _ Hk') as [a Ha].
  rewrite drop_app_le by lia.
  rewrite (drop_S _ _ _ Ha). simpl.
  intros [= ->]. apply Hrl. by eapply list_elem_of_lookup_2.
Qed.

Lemma chain_invariant_witness :
  (Reachable holds_two ∧ 0 < count (self holds_two) ∧
   Z.of_nat (base.size (cells (mem holds_two))) < 4294967296) ∧
  ∃ r nd,
    rearNode (self holds_two) = Some r ∧
    follow (cells (mem holds_two)) (Z.to_nat (count (self holds_two) - 1))
      (frontNode (self holds_two)) = Some (Some r) ∧
    (∀ k, (k < Z.to_nat (count (self holds_two) - 1))%nat →
          follow (cells (mem holds_two)) k (frontNode (self holds_two))
            ≠ Some (Some r)) ∧
    cells (mem holds_two) !! r = Some nd ∧ next nd = None.
Proof.
  assert (HR : Reachable holds_two)
    by (exists [Push 10; Push 20], [Void; Void]; reflexivity).
  assert (Hpos : 0 < count (self holds_two)) by reflexivity.
  assert (Hlt : Z.of_nat (base.size (cells (mem holds_two))) < 4294967296)
    by reflexivity.
  split; [auto | apply (chain_invariant holds_two HR Hpos Hlt)].
Defined.

(** C6, as written, fails: on the queue of 2^31 nodes [count] is [INT_MIN],
    and the [pop] that removes the front node leaves [count] at [INT_MAX],
    not one less. *)
Lemma pop_wraps_count_at_int_min :
  let cs := replicate (Z.to_nat 2147483648) (Push 0) in
  ∃ answers w v w',
    run cs init = Some (answers, w) ∧ frontNode (self w) ≠ None ∧
    pop w = Some (v, w') ∧
    count (self w) = -2147483648 ∧ count (self w') = 2147483647.
Proof.
  intros cs. unfold cs.
  destruct (run_replicate_push (Z.to_nat 2147483648) 0)
    as (answers & w & l & Hr & R & Hlen).
  assert (Hcnt : count (self w) = -2147483648).
  { rewrite (rep_count _ _ R), Hlen, Z2Nat.id by lia. reflexivity. }
  destruct l as [|[a v] l'].
  { cbn [length] in Hlen. lia. }
  destruct (Rep_head _ _ _ _ R) as (Hf & nx & Hlk).
  exists answers, w, v, (popped w a (mkLinkedList v nx)).
  split; [exact Hr|]. split; [by rewrite Hf|].
  split; [apply (pop_nonempty _ _ _ Hf Hlk)|]. split; [done|].
  cbn [popped self count]. rewrite Hcnt. reflexivity.
Qed.

(** C6, amended. Effect of a successful [pop]: on every non-empty queue it
    returns the value stored in the front node, moves [frontNode] to that
    node's [next], deletes the node and takes one off [count], except that a
    [count] of [INT_MIN] becomes [INT_MAX]; when that empties the queue it
    also nulls [rearNode], and the next [push] then points both [frontNode]
    and [rearNode] at its new node. *)
Theorem pop_effect (w : World) (p : addr) :
  Reachable w → frontNode (self w) = Some p →
  ∃ nd w', cells (mem w) !! p = Some nd ∧ pop w = Some (val nd, w') ∧
    frontNode (self w') = next nd ∧
    count (self w') = (if decide (count (self w) = INT_MIN) then INT_MAX
                       else count (self w) - 1) ∧
    cells (mem w') = delete p (cells (mem w)) ∧
    released (mem w') = released (mem w) ++ [p] ∧
    (next nd ≠ None → rearNode (self w') = rearNode (self w)) ∧
    (next nd = None →
       rearNode (self w') = None ∧
       ∀ data, ∃ w'' a,
         push data w' = Some (tt, w'') ∧
         frontNode (self w'') = Some a ∧ rearNode (self w'') = Some a ∧
         cells (mem w'') !! a = Some (mkLinkedList data None) ∧
         count (self w'') = count (self w) ∧
         front w'' = Some (data, w'')).
Proof.
  intros HR Hf. destruct (Reachable_Rep _ HR) as (l & R).
  destruct l as [|[a v] l'].
  { by rewrite (proj2 (Rep_front_nil _ _ R)) in Hf. }
  destruct (Rep_head _ _ _ _ R) as (Hf' & nx & Hlk).
  rewrite Hf in Hf'. injection Hf' as <-.
  pose proof (wrap32_range (Z.of_nat (length ((p, v) :: l')))) as Hrange.
  rewrite <- (rep_count _ _ R) in Hrange.
  exists (mkLinkedList v nx), (popped w p (mkLinkedList v nx)).
  split; [done|]. split; [by apply pop_nonempty|]. simpl.
  split; [done|]. split.
  { case_decide as Hmin.
    - rewrite Hmin. reflexivity.
    - apply wrap32_id. unfold INT_MIN, INT_MAX in *. lia. }
  split; [done|]. split; [done|].
  split; [intros Hnx; by destruct nx|].
  intros ->.
  assert (Hone : count (self w) = 1).
  { pose proof (Rep_popped _ _ _ _ _ R Hlk) as R'.
    assert (l' = []) as -> by (by apply (Rep_front_nil _ _ R')).
    by rewrite (rep_count _ _ R). }
  split; [done|]. intros data.
  exists (pushed_first (popped w p (mkLinkedList v None)) data), (brk (mem w)).
  split; [by apply push_null_rear|]. simpl.
  rewrite lookup_insert_eq, Hone.
  split; [done|]. split; [done|]. split; [done|]. split; [reflexivity|].
  apply (front_nonempty _ (brk (mem w)) (mkLinkedList data None)); simpl;
    [done | by rewrite lookup_insert_eq].
Qed.

Lemma pop_effect_witness :
  (Reachable holds_minus_one ∧
   frontNode (self holds_minus_one) = Some 1%positive) ∧
  ∃ nd w', cells (mem holds_minus_one) !! 1%positive = Some nd ∧
    pop holds_minus_one = Some (val nd, w') ∧
    frontNode (self w') = next nd ∧
    count (self w') = (if decide (count (self holds_minus_one) = INT_MIN)
                       then INT_MAX
                       else count (self holds_minus_one) - 1) ∧
    cells (mem w') = delete 1%positive (cells (mem holds_minus_one)) ∧
    released (mem w') = released (mem holds_minus_one) ++ [1%positive] ∧
    (next nd ≠ None → rearNode (self w') = rearNode (self holds_minus_one)) ∧
    (next nd = None →
       rearNode (self w') = None ∧
       ∀ data, ∃ w'' a,
         push data w' = Some (tt, w'') ∧
         frontNode (self w'') = Some a ∧ rearNode (self w'') = Some a ∧
         cells (mem w'') !! a = Some (mkLinkedList data None) ∧
         count (self w'') = count (self holds_minus_one) ∧
         front w'' = Some (data, w'')).
Proof.
  assert (HR : Reachable holds_minus_one)
    by (exists [Push (-1)], [Void]; reflexivity).
  assert (Hf : frontNode (self holds_minus_one) = Some 1%positive)
    by reflexivity.
  split; [auto | apply (pop_effect holds_minus_one 1%positive HR Hf)].
Defined.

(** C7. Error atomicity: on an empty queue [pop] and [front] leave the heap
    and the queue object ([frontNode], [rearNode], [count]) as they were; the
    queue stays empty and the only effect is the line on [cout]. *)
Theorem empty_call_keeps_state (w : World) :
  frontNode (self w) = None →
  ∃ w1 w2, pop w = Some (-1, w1) ∧ front w = Some (-1, w2) ∧
    (mem w1 = mem w ∧ self w1 = self w ∧ frontNode (self w1) = None) ∧
    (mem w2 = mem w ∧ self w2 = self w ∧ frontNode (self w2) = None) ∧
    cout w1 = cout w ++ [empty_message] ∧ cout w2 = cout w ++ [empty_message].
Proof.
  intros Hf. exists (complained w), (complained w).
  rewrite pop_empty, front_empty by done. simpl. auto 10.
Qed.

Lemma empty_call_keeps_state_witness :
  frontNode (self init) = None ∧
  ∃ w1 w2, pop init = Some (-1, w1) ∧ front init = Some (-1, w2) ∧
    (mem w1 = mem init ∧ self w1 = self init ∧ frontNode (self w1) = None) ∧
    (mem w2 = mem init ∧ self w2 = self init ∧ frontNode (self w2) = None) ∧
    cout w1 = cout init ++ [empty_message] ∧
    cout w2 = cout init ++ [empty_message].
Proof. split; [reflexivity | apply (empty_call_keeps_state init); reflexivity]. Defined.

(** C8. Teardown: after any sequence of calls on the fresh queue the
    destructor runs to completion; it deletes the nodes reachable from
    [frontNode], each once, in order from the front, leaves no node on the
    heap, and over the whole run every node ever allocated has been released
    exactly once. *)
Theorem teardown_releases_once (cs : list call) :
  ∃ answers w w',
    run cs init = Some (answers, w) ∧ destructor w = Some (tt, w') ∧
    released (mem w') = released (mem w) ++ nodes_from_front w ∧
    NoDup (nodes_from_front w) ∧
    cells (mem w') = ∅ ∧
    NoDup (released (mem w')) ∧ released (mem w') ≡ₚ allocated (mem w').
Proof.
  destruct (run_total cs) as (answers & w & l & Hr & R).
  destruct (destroy_loop_chain l w) as (w' & Hd & Hcells & Hrel & Hal & _).
  { apply (rep_chain _ _ R). }
  { apply (rep_dom _ _ R). }
  { by eapply Rep_nodup. }
  assert (Hwalk : nodes_from_front w = l.*1).
  { unfold nodes_from_front. apply chain_walk; [apply (rep_chain _ _ R)|].
    by rewrite (Rep_size _ _ R). }
  exists answers, w, w'. unfold destructor. rewrite Hd, Hwalk.
  split; [done|]. split; [done|]. split; [done|].
  split; [by eapply Rep_nodup|]. split; [done|].
  rewrite Hrel, Hal, (rep_alloc _ _ R).
  split; [|done]. rewrite <- (rep_alloc _ _ R). apply (rep_alloc_nodup _ _ R).
Qed.

(** C9. Sentinel collision: [pop] and [front] on an empty queue return
    [-1], and so do they on a queue whose front node stores [-1]; the two
    returns are the same [int]. *)
Theorem sentinel_collision (w w' : World) (p : addr) (nd : LinkedList) :
  frontNode (self w) = None →
  frontNode (self w') = Some p → cells (mem w') !! p = Some nd → val nd = -1 →
  fst <$> pop w = Some (-1) ∧ fst <$> pop w' = Some (-1) ∧
  fst <$> front w = Some (-1) ∧ fst <$> front w' = Some (-1).
Proof.
  intros Hf Hf' Hlk Hv.
  rewrite (pop_empty _ Hf), (front_empty _ Hf).
  rewrite (pop_nonempty _ _ _ Hf' Hlk), (front_nonempty _ _ _ Hf' Hlk).
  simpl. by rewrite Hv.
Qed.

Lemma sentinel_collision_witness :
  (frontNode (self init) = None ∧
   frontNode (self holds_minus_one) = Some 1%positive ∧
   cells (mem holds_minus_one) !! 1%positive = Some (mkLinkedList (-1) None) ∧
   val (mkLinkedList (-1) None) = -1) ∧
  fst <$> pop init = Some (-1) ∧ fst <$> pop holds_minus_one = Some (-1) ∧
  fst <$> front init = Some (-1) ∧ fst <$> front holds_minus_one = Some (-1).
Proof.
  split; [repeat split; reflexivity|].
  apply (sentinel_collision init holds_minus_one 1%positive
           (mkLinkedList (-1) None)); reflexivity.
Defined.

(** C10. front/pop agreement: on a non-empty queue [front] returns the value
    the next [pop] returns and leaves the state as it was, so any number of
    [front] calls before a [pop] changes neither what the [pop] returns nor
    the state it leaves. *)
Theorem front_pop_agree (w : World) (p : addr) (nd : LinkedList) (n : nat) :
  frontNode (self w) = Some p → cells (mem w) !! p = Some nd →
  front w = Some (val nd, w) ∧ fst <$> pop w = Some (val nd) ∧
  front_then_pop n w = pop w.
Proof.
  intros Hf Hlk. pose proof (front_nonempty _ _ _ Hf Hlk) as Hfront.
  split; [done|]. split; [by rewrite (pop_nonempty _ _ _ Hf Hlk)|].
  induction n as [|n IH]; [done|].
  simpl. cbv beta iota delta [bind]. by rewrite Hfront.
Qed.

Lemma front_pop_agree_witness :
  (frontNode (self holds_two) = Some 1%positive ∧
   cells (mem holds_two) !! 1%positive = Some (mkLinkedList 10 (Some 2%positive))) ∧
  front holds_two = Some (10, holds_two) ∧ fst <$> pop holds_two = Some 10 ∧
  front_then_pop 3 holds_two = pop holds_two.
Proof.
  split; [split; reflexivity|].
  apply (front_pop_agree holds_two 1%positive
           (mkLinkedList 10 (Some 2%positive)) 3); reflexivity.
Defined.

(** * Further properties of the queue *)

Section CallEffects.
Implicit Types (l : list (addr * Z)) (w : World).

Lemma push_logs w data w' :
  push data w = Some (tt, w') →
  allocated (mem w') = allocated (mem w) ++ [brk (mem w)] ∧
  released (mem w') = released (mem w) ∧ cout w' = cout w.
Proof.
  destruct w as [[h b al rel] [fr rr cnt] out]. destruct rr as [r|].
  - cbv beta iota delta [push bind ret fail this set_self set_frontNode
      set_rearNode set_count get_mem set_mem new_LinkedList load store_next].
    simpl. destruct (<[b:=mkLinkedList data None]> h !! r); simpl; [|done].
    by intros [= <-].
  - by intros [= <-].
Qed.

(** What one call does to a state that represents [l]. *)
Lemma invoke_cases c l w :
  Rep l w →
  ∃ a w', invoke c w = Some (a, w') ∧
    match c with
    | Push data =>
        Rep (l ++ [(brk (mem w), data)]) w' ∧ cout w' = cout w ∧
        allocated (mem w') = allocated (mem w) ++ [brk (mem w)] ∧
        released (mem w') = released (mem w)
    | Pop =>
        match l with
        | [] => w' = complained w
        | (p, v) :: l' =>
            ∃ nx, cells (mem w) !! p = Some (mkLinkedList v nx) ∧
                  w' = popped w p (mkLinkedList v nx) ∧ Rep l' w'
        end
    | Front =>
        match l with
        | [] => w' = complained w
        | _ :: _ => w' = w
        end
    | Size => w' = w
    end.
Proof.
  intros R. destruct c as [data| | |].
  - destruct (push_Rep _ _ data R) as (w' & Hp & R' & Hout).
    destruct (push_logs _ _ _ Hp) as (Hal & Hrel & _).
    exists Void, w'. cbv beta iota delta [invoke bind ret]. rewrite Hp. auto.
  - destruct l as [|[p v] l'].
    + exists (Int (-1)), (complained w). cbv beta iota delta [invoke bind ret].
      by rewrite pop_empty by (by apply (Rep_front_nil _ _ R)).
    + destruct (Rep_head _ _ _ _ R) as (Hf & nx & Hlk).
      exists (Int v), (popped w p (mkLinkedList v nx)).
      cbv beta iota delta [invoke bind ret].
      rewrite (pop_nonempty _ _ _ Hf Hlk). split; [done|].
      exists nx. eauto using Rep_popped.
  - destruct l as [|[p v] l'].
    + exists (Int (-1)), (complained w). cbv beta iota delta [invoke bind ret].
      by rewrite front_empty by (by apply (Rep_front_nil _ _ R)).
    + destruct (Rep_head _ _ _ _ R) as (Hf & nx & Hlk).
      exists (Int v), w. cbv beta iota delta [invoke bind ret].
      by rewrite (front_nonempty _ _ _ Hf Hlk).
  - exists (Int (count (self w))), w. done.
Qed.

Lemma chain_walk_values (h : gmap addr LinkedList) p l n :
  chain h p l → (length l <= n)%nat → walk_values n h p = l.*2.
Proof.
  revert p n. induction l as [|[a v] l IH]; simpl; intros p n Hc Hn.
  - subst p. by destruct n.
  - destruct Hc as (-> & nx & Hlk & Hc). destruct n as [|n]; [lia|].
    simpl. rewrite Hlk. simpl. f_equal. apply IH; [done|lia].
Qed.

Lemma Rep_nodes l w : Rep l w → nodes_from_front w = l.*1.
Proof.
  intros R. unfold nodes_from_front.
  apply chain_walk; [apply (rep_chain _ _ R)|]. by rewrite (Rep_size _ _ R).
Qed.

Lemma Rep_values l w : Rep l w → values_from_front w = l.*2.
Proof.
  intros R. unfold values_from_front.
  apply chain_walk_values; [apply (rep_chain _ _ R)|].
  by rewrite (Rep_size _ _ R).
Qed.

(** In a chain every [next] is null or the address of a later node. *)
Lemma chain_next_inside (h : gmap addr LinkedList) p l a nd q :
  chain h p l → a ∈ l.*1 → h !! a = Some nd → next nd = Some q → q ∈ l.*1.
Proof.
  revert p. induction l as [|[b u] l IH]; simpl; intros p Hc Ha Hlk Hnx.
  - by apply elem_of_nil in Ha.
  - destruct Hc as (-> & nx & Hb & Hc).
    destruct (decide (a = b)) as [->|Hne].
    + rewrite Hb in Hlk. injection Hlk as <-. simpl in Hnx. subst nx.
      destruct l as [|[c x] l']; simpl in Hc; [done|].
      destruct Hc as [[= ->] _]. right. left.
    + apply elem_of_cons in Ha as [Ha|Ha]; [done|]. right. eauto.
Qed.
End CallEffects.

Section RunInvariants.
Implicit Types (l : list (addr * Z)) (w : World).

(** Along a run the release log stays a prefix of the allocation log, the
    live chain being the rest, and [cout] grows by one line per call that
    found the queue empty. *)
Lemma run_logs cs l w :
  Rep l w → allocated (mem w) = released (mem w) ++ l.*1 →
  ∃ answers w' l',
    run cs w = Some (answers, w') ∧ Rep l' w' ∧
    allocated (mem w') = released (mem w') ++ l'.*1 ∧
    cout w' = cout w ++ replicate (empty_calls cs w) empty_message.
Proof.
  revert l w. induction cs as [|c cs IH]; intros l w R Hord.
  - exists [], w, l. simpl. by rewrite app_nil_r.
  - destruct (invoke_cases c _ _ R) as (a & w1 & Hi & Hcase).
    pose proof (Rep_front_nil _ _ R) as Hnil.
    assert (∃ l1, Rep l1 w1 ∧ allocated (mem w1) = released (mem w1) ++ l1.*1 ∧
              cout w1 = cout w ++
                replicate (match c, frontNode (self w) with
                           | Pop, None | Front, None => 1%nat
                           | _, _ => 0%nat
                           end) empty_message) as (l1 & R1 & Hord1 & Hout1).
    { destruct c as [data| | |].
      - destruct Hcase as (R1 & Hout & Hal & Hrel).
        exists (l ++ [(brk (mem w), data)]). split; [done|].
        rewrite Hal, Hrel, Hord, fmap_app, Hout. simpl.
        rewrite app_nil_r. by rewrite (assoc_L (++)).
      - destruct l as [|[p v] l'].
        + subst w1. exists []. split; [by apply Rep_complained|].
          destruct Hnil as [_ Hnil]. rewrite (Hnil eq_refl). by simpl.
        + destruct Hcase as (nx & Hlk & -> & R1). exists l'.
          split; [done|]. simpl. rewrite Hord. simpl.
          destruct (Rep_head _ _ _ _ R) as [-> _].
          rewrite app_nil_r. split; [|done]. by rewrite <- (assoc_L (++)).
      - destruct l as [|[p v] l'].
        + subst w1. exists []. split; [by apply Rep_complained|].
          destruct Hnil as [_ Hnil]. rewrite (Hnil eq_refl). by simpl.
        + subst w1. exists ((p, v) :: l'). split; [done|]. split; [done|].
          destruct (Rep_head _ _ _ _ R) as [-> _]. simpl. by rewrite app_nil_r.
      - subst w1. exists l. simpl. by rewrite app_nil_r. }
    destruct (IH _ _ R1 Hord1) as (rest & w2 & l2 & Hr & R2 & Hord2 & Hout2).
    exists (a :: rest), w2, l2. cbn [run empty_calls].
    cbv beta iota delta [bind ret]. rewrite Hi, Hr.
    split; [done|]. split; [done|]. split; [done|].
    rewrite Hout2, Hout1, replicate_add. by rewrite (assoc_L (++)).
Qed.
End RunInvariants.

(** X1. The queue refines the list of its values: whatever the calls, the run
    completes, each call answers as on the list ([push] appends, [pop] and
    [front] read the head or answer [-1] on the empty list, [size] is the
    length as an [int]), and the values in the chain are the list's. *)
Theorem run_refines_list (cs : list call) :
  ∃ w, run cs init = Some ((model_run cs []).1, w) ∧
       values_from_front w = (model_run cs []).2.
Proof.
  destruct (run_Rep cs _ _ Rep_init) as (w & l & Hr & R & Hl).
  exists w. split; [exact Hr|]. by rewrite (Rep_values _ _ R).
Qed.

(** X2. No node leaks while the queue is in use: after any sequence of calls
    the number of live nodes on the heap is the number of pushes minus the
    number of successful pops, however large. *)
Theorem live_nodes_accounting (cs : list call) :
  ∃ answers w,
    run cs init = Some (answers, w) ∧
    (base.size (cells (mem w)) + successful_pops cs init = pushes cs)%nat.
Proof.
  destruct (run_total cs) as (answers & w & l & Hr & R).
  exists answers, w. split; [done|].
  pose proof (run_accounting _ _ _ _ _ _ Rep_init Hr R) as Hacc.
  rewrite (Rep_size _ _ R). simpl in Hacc. lia.
Qed.

(** X3. No dangling pointer: in every reachable state [frontNode] and
    [rearNode] are null or point at a live node, the [next] of every live
    node is null or points at a live node, and the live nodes are exactly
    those on the chain from [frontNode]. *)
Theorem no_dangling_pointer (w : World) :
  Reachable w →
  (∀ p, frontNode (self w) = Some p → is_Some (cells (mem w) !! p)) ∧
  (∀ p, rearNode (self w) = Some p → is_Some (cells (mem w) !! p)) ∧
  (∀ a nd p, cells (mem w) !! a = Some nd → next nd = Some p →
             is_Some (cells (mem w) !! p)) ∧
  (∀ a, is_Some (cells (mem w) !! a) ↔ a ∈ nodes_from_front w).
Proof.
  intros HR. destruct (Reachable_Rep _ HR) as (l & R).
  rewrite (Rep_nodes _ _ R). split; [|split; [|split]].
  - intros p Hf. apply (rep_dom _ _ R).
    destruct l as [|[a v] l']; [by rewrite (proj2 (Rep_front_nil _ _ R)) in Hf|].
    destruct (Rep_head _ _ _ _ R) as [Hf' _]. rewrite Hf in Hf'.
    injection Hf' as ->. left.
  - intros p Hr. apply (rep_dom _ _ R). rewrite (rep_rear _ _ R) in Hr.
    by apply last_Some_elem_of.
  - intros a nd p Hlk Hnx. apply (rep_dom _ _ R).
    eapply chain_next_inside; [apply (rep_chain _ _ R)| |done|done].
    apply (rep_dom _ _ R). eauto.
  - apply (rep_dom _ _ R).
Qed.

Lemma no_dangling_pointer_witness :
  Reachable holds_two ∧
  (∀ p, frontNode (self holds_two) = Some p →
        is_Some (cells (mem holds_two) !! p)) ∧
  (∀ p, rearNode (self holds_two) = Some p →
        is_Some (cells (mem holds_two) !! p)) ∧
  (∀ a nd p, cells (mem holds_two) !! a = Some nd → next nd = Some p →
             is_Some (cells (mem holds_two) !! p)) ∧
  (∀ a, is_Some (cells (mem holds_two) !! a) ↔ a ∈ nodes_from_front holds_two).
Proof.
  assert (HR : Reachable holds_two)
    by (exists [Push 10; Push 20], [Void; Void]; reflexivity).
  split; [exact HR | apply (no_dangling_pointer holds_two HR)].
Defined.

(** X4. Nodes are released in the order they were allocated: after any
    sequence of calls the allocation log is the release log followed by the
    nodes still on the chain, front to rear. *)
Theorem released_in_allocation_order (cs : list call) :
  ∃ answers w,
    run cs init = Some (answers, w) ∧
    allocated (mem w) = released (mem w) ++ nodes_from_front w.
Proof.
  destruct (run_logs cs [] init Rep_init eq_refl)
    as (answers & w & l & Hr & R & Hord & _).
  exists answers, w. split; [done|]. by rewrite (Rep_nodes _ _ R).
Qed.

(** X5. The diagnostic is printed exactly by the calls that find the queue
    empty: after any sequence of calls [cout] holds one "Queue is empty" line
    per [pop] or [front] made on the empty queue, and nothing else. *)
Theorem cout_counts_empty_calls (cs : list call) :
  ∃ answers w,
    run cs init = Some (answers, w) ∧
    cout w = replicate (empty_calls cs init) empty_message.
Proof.
  destruct (run_logs cs [] init Rep_init eq_refl)
    as (answers & w & l & Hr & _ & _ & Hout).
  exists answers, w. split; [done|]. by rewrite Hout.
Qed.

(** X6. A [push] does not disturb the front: on a reachable non-empty queue
    [front] returns the same value before and after any [push]. *)
Theorem push_keeps_front (w : World) (data : Z) :
  Reachable w → frontNode (self w) ≠ None →
  ∃ v w', front w = Some (v, w) ∧ push data w = Some (tt, w') ∧
          front w' = Some (v, w').
Proof.
  intros HR Hne. destruct (Reachable_Rep _ HR) as (l & R).
  destruct l as [|[a v] l'].
  { by rewrite (proj2 (Rep_front_nil _ _ R)) in Hne. }
  destruct (Rep_head _ _ _ _ R) as (Hf & nx & Hlk).
  destruct (push_Rep _ _ data R) as (w' & Hp & R' & _).
  destruct (Rep_head _ _ _ _ R') as (Hf' & nx' & Hlk').
  exists v, w'. split; [apply (front_nonempty _ _ _ Hf Hlk)|].
  split; [done|]. apply (front_nonempty _ _ _ Hf' Hlk').
Qed.

Lemma push_keeps_front_witness :
  (Reachable holds_two ∧ frontNode (self holds_two) ≠ None) ∧
  ∃ v w', front holds_two = Some (v, holds_two) ∧
          push 30 holds_two = Some (tt, w') ∧ front w' = Some (v, w').
Proof.
  assert (HR : Reachable holds_two)
    by (exists [Push 10; Push 20], [Void; Void]; reflexivity).
  assert (Hne : frontNode (self holds_two) ≠ None) by discriminate.
  split; [auto | apply (push_keeps_front holds_two 30 HR Hne)].
Defined.

(** * Properties of the user registry *)

Module SocialNetFacts.
Import SocialNet.

Section Tally.
Implicit Types (us : gmap string BaseUser) (r : Role) (u : BaseUser).

Lemma weight_role_of r u : weight r u = if decide (r = role_of u) then 1%nat else 0%nat.
Proof. by destruct r, u. Qed.

Lemma tally_cons r k u (l : list (string * BaseUser)) :
  length (filter (fun u => has_role r u = true) ((k, u) :: l).*2)
  = (weight r u + length (filter (fun u => has_role r u = true) l.*2))%nat.
Proof.
  simpl. unfold weight. rewrite filter_cons.
  destruct (decide (has_role r u = true)) as [->|Hn]; [done|].
  by destruct (has_role r u).
Qed.

Lemma tally_empty r : tally r ∅ = 0%nat.
Proof. unfold tally. by rewrite map_to_list_empty. Qed.

Lemma tally_insert_fresh r k u us :
  us !! k = None → tally r (<[k := u]> us) = (weight r u + tally r us)%nat.
Proof.
  intros Hk. unfold tally. rewrite (map_to_list_insert us k u Hk).
  apply tally_cons.
Qed.

Lemma tally_delete r k u us :
  us !! k = Some u → tally r us = (weight r u + tally r (delete k us))%nat.
Proof.
  intros Hk. unfold tally at 1. rewrite <- (map_to_list_delete us k u Hk).
  apply tally_cons.
Qed.

Lemma tally_insert_over r k u u' us :
  us !! k = Some u →
  (tally r (<[k := u']> us) + weight r u = weight r u' + tally r us)%nat.
Proof.
  intros Hk. rewrite <- (insert_delete_eq us k u').
  rewrite tally_insert_fresh by apply lookup_delete_eq.
  rewrite (tally_delete r k u us Hk). lia.
Qed.

Lemma roles_partition (l : list BaseUser) :
  (length (filter (fun u => has_role ADMIN_ROLE u = true) l)
   + length (filter (fun u => has_role MOD_ROLE u = true) l)
   + length (filter (fun u => has_role USER_ROLE u = true) l)
   = length l)%nat.
Proof.
  induction l as [|u l IH]; [done|].
  rewrite !filter_cons. destruct u; simpl in *; lia.
Qed.

Lemma tally_total us :
  (tally ADMIN_ROLE us + tally MOD_ROLE us + tally USER_ROLE us
   = base.size us)%nat.
Proof.
  unfold tally. rewrite roles_partition, length_fmap.
  apply length_map_to_list.
Qed.

Lemma tally_le_size r us : (tally r us <= base.size us)%nat.
Proof. pose proof (tally_total us). destruct r; lia. Qed.
End Tally.

Section Methods.
Implicit Types (m : UserManager) (r : Role) (u : BaseUser).

Lemma counter_enrol r n role m :
  counter r (enrol n role m).1
  = if decide (r = role) then wrap32 (counter r m + 1) else counter r m.
Proof. by destruct r, role. Qed.

Lemma enrol_object n role m :
  (enrol n role m).2 = match role with
                       | ADMIN_ROLE => Admin n
                       | MOD_ROLE => Moderator n
                       | USER_ROLE => User n
                       end
  ∧ users (enrol n role m).1 = users m.
Proof. by destruct role. Qed.

Lemma enrol_role n role m :
  role_of (enrol n role m).2 = role ∧ name (enrol n role m).2 = n.
Proof. by destruct role. Qed.

Lemma counter_strike r u m :
  counter r (strike (getRoleName u) m)
  = if decide (r = role_of u) then wrap32 (counter r m - 1) else counter r m.
Proof. by destruct r, u. Qed.

Lemma users_strike s m : users (strike s m) = users m.
Proof. unfold strike. by repeat case_bool_decide. Qed.

Lemma same_role_test newRole u :
  match newRole with
  | ADMIN_ROLE => bool_decide (getRoleName u = "ADMIN")
  | MOD_ROLE => bool_decide (getRoleName u = "MOD")
  | USER_ROLE => bool_decide (getRoleName u = "USER")
  end = bool_decide (newRole = role_of u).
Proof. by destruct newRole, u. Qed.

Lemma admin_test u :
  bool_decide (getRoleName u = "ADMIN") = bool_decide (role_of u = ADMIN_ROLE).
Proof. by destruct u. Qed.

(** The three methods written out on the role of the stored object. *)
Lemma addNewUser_fresh n role m :
  users m !! n = None →
  addNewUser n role m
  = (true,
     set_users (<[n := (enrol n role m).2]> (users m)) (enrol n role m).1,
     [line ("User '" +:+ n +:+ "' added successfully.")]).
Proof.
  intros Hn. unfold addNewUser. rewrite Hn.
  destruct (enrol n role m) as [m1 u] eqn:E. simpl.
  by rewrite <- (proj2 (enrol_object n role m)), E.
Qed.

Lemma removeUser_found n u m :
  users m !! n = Some u →
  removeUser n m
  = if bool_decide (role_of u = ADMIN_ROLE) && (adminCount m <=? 1)
    then (false, m, [line "Cannot remove the last admin user."])
    else (true,
          set_users (delete n (users m)) (strike (getRoleName u) m),
          [line ("User '" +:+ n +:+ "' removed successfully.")]).
Proof.
  intros Hn. unfold removeUser. rewrite Hn, admin_test.
  by rewrite users_strike.
Qed.

Lemma changeRole_found n newRole u m :
  users m !! n = Some u →
  changeRole n newRole m
  = if bool_decide (newRole = role_of u)
    then (false, m, [line "User already has the same role."])
    else (true,
          set_users
            (<[n := (enrol n newRole (strike (getRoleName u) m)).2]> (users m))
            (enrol n newRole (strike (getRoleName u) m)).1,
          [line ("Role changed successfully for user '" +:+ n +:+ "'.")]).
Proof.
  intros Hn. unfold changeRole. rewrite Hn, same_role_test.
  case_bool_decide; [done|].
  destruct (enrol n newRole (strike (getRoleName u) m)) as [m2 v] eqn:E.
  simpl.
  pose proof (proj2 (enrol_object n newRole (strike (getRoleName u) m))) as Hu.
  rewrite E in Hu. simpl in Hu. by rewrite Hu, users_strike.
Qed.

Lemma counter_set_users r us m : counter r (set_users us m) = counter r m.
Proof. by destruct r. Qed.
End Methods.

Section Soundness.
Implicit Types (m : UserManager) (r : Role) (u : BaseUser).

Lemma Sound_fresh : Sound fresh_manager.
Proof.
  split.
  - intros k u Hk. simpl in Hk. by rewrite lookup_empty in Hk.
  - intros r. simpl. rewrite tally_empty. by destruct r.
Qed.

Lemma Sound_counter_range r m : Sound m → INT_MIN <= counter r m <= INT_MAX.
Proof. intros S. rewrite (sound_counters _ S). apply wrap32_range. Qed.

Lemma addNewUser_Sound n role m : Sound m → Sound (addNewUser n role m).1.2.
Proof.
  intros S. destruct (users m !! n) as [u|] eqn:Hn.
  { unfold addNewUser. by rewrite Hn. }
  rewrite (addNewUser_fresh _ _ _ Hn). simpl.
  destruct (enrol_role n role m) as [Hrole Hname]. split; simpl.
  - intros k u. rewrite lookup_insert. case_decide as Hk.
    + intros [= <-]. by subst k.
    + apply (sound_names _ S).
  - intros r. rewrite counter_set_users, counter_enrol. simpl.
    rewrite (tally_insert_fresh _ _ _ _ Hn), weight_role_of, Hrole.
    rewrite (sound_counters _ S). case_decide.
    + rewrite wrap32_succ. f_equal. lia.
    + done.
Qed.

Lemma removeUser_Sound n m : Sound m → Sound (removeUser n m).1.2.
Proof.
  intros S. destruct (users m !! n) as [u|] eqn:Hn.
  2: { unfold removeUser. by rewrite Hn. }
  rewrite (removeUser_found _ _ _ Hn).
  destruct (bool_decide (role_of u = ADMIN_ROLE) && (adminCount m <=? 1));
    [done|].
  split; simpl.
  - intros k v Hk. apply lookup_delete_Some in Hk as [_ Hk].
    by apply (sound_names _ S).
  - intros r. rewrite counter_set_users, counter_strike.
    rewrite (sound_counters _ S), (tally_delete r _ _ _ Hn), weight_role_of.
    case_decide.
    + rewrite wrap32_pred. f_equal. lia.
    + done.
Qed.

Lemma changeRole_Sound n newRole m : Sound m → Sound (changeRole n newRole m).1.2.
Proof.
  intros S. destruct (users m !! n) as [u|] eqn:Hn.
  2: { unfold changeRole. by rewrite Hn. }
  rewrite (changeRole_found _ _ _ _ Hn). case_bool_decide as Hsame; [done|].
  destruct (enrol_role n newRole (strike (getRoleName u) m)) as [Hrole Hname].
  split; simpl.
  - intros k v. rewrite lookup_insert. case_decide as Hk.
    + intros [= <-]. by subst k.
    + apply (sound_names _ S).
  - intros r. rewrite counter_set_users, counter_enrol, counter_strike.
    pose proof (tally_insert_over r n u
                  (enrol n newRole (strike (getRoleName u) m)).2 _ Hn) as Ht.
    rewrite !weight_role_of, Hrole in Ht.
    rewrite (sound_counters _ S).
    repeat case_decide; subst; try done;
      rewrite ?wrap32_succ, ?wrap32_pred; f_equal; lia.
Qed.

Lemma serve_Sound q m : Sound m → Sound (serve q m).1.2.
Proof.
  destruct q; simpl;
    auto using addNewUser_Sound, removeUser_Sound, changeRole_Sound.
Qed.

Lemma after_Sound rs m : Sound m → Sound (after rs m).
Proof.
  revert m. induction rs as [|q rs IH]; intros m S; [done|].
  apply IH. by apply serve_Sound.
Qed.

(** With at most [INT_MAX] users the counters are the tallies themselves. *)
Lemma Sound_exact r m :
  Sound m → Z.of_nat (base.size (users m)) <= INT_MAX →
  counter r m = Z.of_nat (tally r (users m)).
Proof.
  intros S Hsz. rewrite (sound_counters _ S). apply wrap32_id.
  pose proof (tally_le_size r (users m)). unfold INT_MIN, INT_MAX in *. lia.
Qed.
End Soundness.

(** The answers of [main]: removing the only admin is refused, the other
    two calls go through. *)
Example main_registry :
  (serve (RemoveUser "Alice")
     (after (take 3 main_requests) fresh_manager)).1.1 = false
  ∧ adminCount (after main_requests fresh_manager) = 2
  ∧ base.size (users (after main_requests fresh_manager)) = 2%nat.
Proof. by vm_compute. Qed.

(** X7. The counters track the map: after any sequence of calls on a fresh
    manager that leaves at most [INT_MAX] users, [adminCount], [modCount] and
    [userCount] are the numbers of stored [Admin], [Moderator] and [User]
    objects, they add up to the number of users, and every object is stored
    under its own [name]. *)
Theorem counters_track_users (rs : list request) :
  Z.of_nat (base.size (users (after rs fresh_manager))) <= INT_MAX →
  adminCount (after rs fresh_manager)
    = Z.of_nat (tally ADMIN_ROLE (users (after rs fresh_manager))) ∧
  modCount (after rs fresh_manager)
    = Z.of_nat (tally MOD_ROLE (users (after rs fresh_manager))) ∧
  userCount (after rs fresh_manager)
    = Z.of_nat (tally USER_ROLE (users (after rs fresh_manager))) ∧
  adminCount (after rs fresh_manager) + modCount (after rs fresh_manager)
    + userCount (after rs fresh_manager)
    = Z.of_nat (base.size (users (after rs fresh_manager))) ∧
  ∀ k u, users (after rs fresh_manager) !! k = Some u → name u = k.
Proof.
  intros Hsz. pose proof (after_Sound rs _ Sound_fresh) as S.
  pose proof (Sound_exact ADMIN_ROLE _ S Hsz) as Ha.
  pose proof (Sound_exact MOD_ROLE _ S Hsz) as Hm.
  pose proof (Sound_exact USER_ROLE _ S Hsz) as Hu.
  simpl in Ha, Hm, Hu. rewrite Ha, Hm, Hu.
  pose proof (tally_total (users (after rs fresh_manager))).
  repeat split; try lia. apply (sound_names _ S).
Qed.

Lemma counters_track_users_witness :
  Z.of_nat (base.size (users (after main_requests fresh_manager))) <= INT_MAX ∧
  (adminCount (after main_requests fresh_manager)
     = Z.of_nat (tally ADMIN_ROLE (users (after main_requests fresh_manager))) ∧
   modCount (after main_requests fresh_manager)
     = Z.of_nat (tally MOD_ROLE (users (after main_requests fresh_manager))) ∧
   userCount (after main_requests fresh_manager)
     = Z.of_nat (tally USER_ROLE (users (after main_requests fresh_manager))) ∧
   adminCount (after main_requests fresh_manager)
     + modCount (after main_requests fresh_manager)
     + userCount (after main_requests fresh_manager)
     = Z.of_nat (base.size (users (after main_requests fresh_manager))) ∧
   ∀ k u, users (after main_requests fresh_manager) !! k = Some u → name u = k).
Proof.
  split.
  - vm_compute. discriminate.
  - apply (counters_track_users main_requests). vm_compute. discriminate.
Defined.

(** X8. A refused call changes nothing: whenever [addNewUser], [removeUser]
    or [changeRole] returns [false], the map and the three counters are as
    before the call. *)
Theorem refused_call_changes_nothing (q : request) (m : UserManager) :
  (serve q m).1.1 = false → (serve q m).1.2 = m.
Proof.
  destruct q as [n role|n|n newRole]; simpl.
  - unfold addNewUser. destruct (users m !! n); [done|].
    by destruct (enrol n role m).
  - unfold removeUser. destruct (users m !! n); [|done].
    by destruct (bool_decide _ && _).
  - unfold changeRole. destruct (users m !! n) as [u|]; [|done].
    destruct (match newRole with
              | ADMIN_ROLE => _ | MOD_ROLE => _ | USER_ROLE => _
              end); [done|].
    by destruct (enrol n newRole (strike (getRoleName u) m)).
Qed.

Lemma refused_call_changes_nothing_witness :
  (serve (RemoveUser "Alice") (after (take 3 main_requests) fresh_manager)).1.1
    = false ∧
  (serve (RemoveUser "Alice") (after (take 3 main_requests) fresh_manager)).1.2
    = after (take 3 main_requests) fresh_manager.
Proof.
  split; [reflexivity|].
  apply (refused_call_changes_nothing (RemoveUser "Alice")
           (after (take 3 main_requests) fresh_manager)).
  reflexivity.
Defined.

(** X9. [removeUser] never removes the last admin: after any sequence of
    calls on a fresh manager that leaves at most [INT_MAX] users, at least
    one of them an [Admin], a further [removeUser] of any name still leaves
    an [Admin]. *)
Theorem removeUser_keeps_an_admin (rs : list request) (n : string) :
  Z.of_nat (base.size (users (after rs fresh_manager))) <= INT_MAX →
  (1 <= tally ADMIN_ROLE (users (after rs fresh_manager)))%nat →
  (1 <= tally ADMIN_ROLE
          (users (removeUser n (after rs fresh_manager)).1.2))%nat.
Proof.
  intros Hsz Hone. pose proof (after_Sound rs _ Sound_fresh) as S.
  pose proof (Sound_exact ADMIN_ROLE _ S Hsz) as Ha. simpl in Ha.
  destruct (users (after rs fresh_manager) !! n) as [u|] eqn:Hn.
  2: { unfold removeUser. by rewrite Hn. }
  rewrite (removeUser_found _ _ _ Hn).
  pose proof (tally_delete ADMIN_ROLE _ _ _ Hn) as Ht.
  rewrite weight_role_of in Ht.
  case_bool_decide as Hadm; simpl.
  - destruct (Z.leb_spec (adminCount (after rs fresh_manager)) 1); [done|].
    simpl. rewrite decide_True in Ht by done. lia.
  - rewrite decide_False in Ht by done. lia.
Qed.

Lemma removeUser_keeps_an_admin_witness :
  (Z.of_nat (base.size (users (after (take 3 main_requests) fresh_manager)))
     <= INT_MAX ∧
   (1 <= tally ADMIN_ROLE
           (users (after (take 3 main_requests) fresh_manager)))%nat) ∧
  (1 <= tally ADMIN_ROLE
          (users (removeUser "Alice"
                    (after (take 3 main_requests) fresh_manager)).1.2))%nat.
Proof.
  assert (Hsz : Z.of_nat (base.size
                   (users (after (take 3 main_requests) fresh_manager)))
                <= INT_MAX) by (vm_compute; discriminate).
  assert (Hone : (1 <= tally ADMIN_ROLE
                         (users (after (take 3 main_requests) fresh_manager)))%nat)
    by (vm_compute; lia).
  split; [auto|].
  apply (removeUser_keeps_an_admin (take 3 main_requests) "Alice" Hsz Hone).
Defined.

(** X10. [changeRole] has no such guard: after any sequence of calls on a
    fresh manager that leaves exactly one [Admin], changing that user to
    another role succeeds and leaves no [Admin], with [adminCount] at [0]. *)
Theorem changeRole_drops_last_admin
    (rs : list request) (n : string) (u : BaseUser) (newRole : Role) :
  users (after rs fresh_manager) !! n = Some u → role_of u = ADMIN_ROLE →
  tally ADMIN_ROLE (users (after rs fresh_manager)) = 1%nat →
  newRole ≠ ADMIN_ROLE →
  (changeRole n newRole (after rs fresh_manager)).1.1 = true ∧
  tally ADMIN_ROLE (users (changeRole n newRole (after rs fresh_manager)).1.2)
    = 0%nat ∧
  adminCount (changeRole n newRole (after rs fresh_manager)).1.2 = 0.
Proof.
  intros Hn Hadm Hone Hnew.
  pose proof (changeRole_Sound n newRole _ (after_Sound rs _ Sound_fresh)) as S'.
  pose proof (sound_counters _ S' ADMIN_ROLE) as Hc. simpl in Hc.
  rewrite Hc. clear Hc S'.
  rewrite (changeRole_found _ _ _ _ Hn).
  rewrite bool_decide_false by congruence. simpl.
  pose proof (tally_insert_over ADMIN_ROLE n u
    (enrol n newRole (strike (getRoleName u) (after rs fresh_manager))).2
    _ Hn) as Ht.
  rewrite !weight_role_of in Ht.
  rewrite (proj1 (enrol_role n newRole _)) in Ht.
  rewrite decide_True in Ht by done. rewrite decide_False in Ht by done.
  assert (Hz : tally ADMIN_ROLE
            (<[n:=(enrol n newRole
                     (strike (getRoleName u) (after rs fresh_manager))).2]>
               (users (after rs fresh_manager))) = 0%nat) by lia.
  rewrite Hz. done.
Qed.

Lemma changeRole_drops_last_admin_witness :
  (users (after (take 3 main_requests) fresh_manager) !! "Alice"
     = Some (Admin "Alice") ∧
   role_of (Admin "Alice") = ADMIN_ROLE ∧
   tally ADMIN_ROLE (users (after (take 3 main_requests) fresh_manager))
     = 1%nat ∧
   USER_ROLE ≠ ADMIN_ROLE) ∧
  (changeRole "Alice" USER_ROLE
     (after (take 3 main_requests) fresh_manager)).1.1 = true ∧
  tally ADMIN_ROLE
    (users (changeRole "Alice" USER_ROLE
              (after (take 3 main_requests) fresh_manager)).1.2) = 0%nat ∧
  adminCount (changeRole "Alice" USER_ROLE
                (after (take 3 main_requests) fresh_manager)).1.2 = 0.
Proof.
  split.
  - repeat split; try reflexivity. discriminate.
  - apply (changeRole_drops_last_admin (take 3 main_requests) "Alice"
             (Admin "Alice") USER_ROLE); try reflexivity. discriminate.
Defined.

(** X11. Add then remove is a round trip: after any sequence of calls on a
    fresh manager, adding a user under a name not in use and removing it
    again both succeed and leave the map and the three counters as they were;
    for an [Admin] this needs another [Admin] already there ([adminCount]
    from [1] to below [INT_MAX]). *)
Theorem add_then_remove_restores (rs : list request) (n : string) (role : Role) :
  users (after rs fresh_manager) !! n = None →
  (role = ADMIN_ROLE → 1 <= adminCount (after rs fresh_manager) < INT_MAX) →
  (addNewUser n role (after rs fresh_manager)).1.1 = true ∧
  (removeUser n (addNewUser n role (after rs fresh_manager)).1.2).1.1 = true ∧
  (removeUser n (addNewUser n role (after rs fresh_manager)).1.2).1.2
    = after rs fresh_manager.
Proof.
  intros Hn Hadm. pose proof (after_Sound rs _ Sound_fresh) as S.
  pose proof (Sound_counter_range ADMIN_ROLE _ S) as Ra.
  pose proof (Sound_counter_range MOD_ROLE _ S) as Rm.
  pose proof (Sound_counter_range USER_ROLE _ S) as Ru.
  revert Hn Hadm Ra Rm Ru. generalize (after rs fresh_manager).
  clear S. intros m Hn Hadm Ra Rm Ru. simpl in Ra, Rm, Ru.
  rewrite (addNewUser_fresh _ _ _ Hn). simpl. split; [done|].
  assert (Hback : ∀ c, INT_MIN <= c <= INT_MAX → wrap32 (wrap32 (c + 1) - 1) = c).
  { intros c Hc. rewrite wrap32_pred.
    replace (c + 1 - 1) with c by lia. by apply wrap32_id. }
  destruct role; simpl; unfold removeUser; simpl; rewrite lookup_insert_eq;
    simpl.
  - specialize (Hadm eq_refl).
    assert (Hup : wrap32 (adminCount m + 1) = adminCount m + 1)
      by (apply wrap32_id; unfold INT_MIN, INT_MAX in *; lia).
    destruct (Z.leb_spec (wrap32 (adminCount m + 1)) 1); [lia|].
    split; [done|]. unfold set_users, strike. simpl.
    rewrite delete_insert_id, Hback by done. by destruct m.
  - split; [done|]. unfold set_users, strike. simpl.
    rewrite delete_insert_id, Hback by done. by destruct m.
  - split; [done|]. unfold set_users, strike. simpl.
    rewrite delete_insert_id, Hback by done. by destruct m.
Qed.

Lemma add_then_remove_restores_witness :
  (users (after (take 3 main_requests) fresh_manager) !! "Dave" = None ∧
   (ADMIN_ROLE = ADMIN_ROLE →
    1 <= adminCount (after (take 3 main_requests) fresh_manager) < INT_MAX)) ∧
  (addNewUser "Dave" ADMIN_ROLE
     (after (take 3 main_requests) fresh_manager)).1.1 = true ∧
  (removeUser "Dave"
     (addNewUser "Dave" ADMIN_ROLE
        (after (take 3 main_requests) fresh_manager)).1.2).1.1 = true ∧
  (removeUser "Dave"
     (addNewUser "Dave" ADMIN_ROLE
        (after (take 3 main_requests) fresh_manager)).1.2).1.2
    = after (take 3 main_requests) fresh_manager.
Proof.
  assert (Hn : users (after (take 3 main_requests) fresh_manager) !! "Dave"
               = None) by reflexivity.
  assert (Hadm : ADMIN_ROLE = ADMIN_ROLE →
                 1 <= adminCount (after (take 3 main_requests) fresh_manager)
                   < INT_MAX)
    by (intros _; vm_compute; split; [discriminate | reflexivity]).
  split; [auto|].
  apply (add_then_remove_restores (take 3 main_requests) "Dave" ADMIN_ROLE
           Hn Hadm).
Defined.

(** X12. A successful [changeRole] replaces one entry and nothing else: when
    the name is present with another role, the call returns [true], the set
    of names is the same, every other user is untouched, and the named user
    is now an object of the new role carrying the same name. *)
Theorem changeRole_replaces_one_entry
    (m : UserManager) (n : string) (u : BaseUser) (newRole : Role) :
  users m !! n = Some u → newRole ≠ role_of u →
  (changeRole n newRole m).1.1 = true ∧
  dom (users (changeRole n newRole m).1.2) = dom (users m) ∧
  (∀ k, k ≠ n → users (changeRole n newRole m).1.2 !! k = users m !! k) ∧
  ∃ v, users (changeRole n newRole m).1.2 !! n = Some v ∧
       role_of v = newRole ∧ name v = n.
Proof.
  intros Hn Hnew. rewrite (changeRole_found _ _ _ _ Hn).
  rewrite bool_decide_false by done. simpl. split; [done|].
  split; [|split].
  - apply dom_insert_lookup_L. eauto.
  - intros k Hk. by rewrite lookup_insert_ne.
  - eexists. rewrite lookup_insert_eq. split; [done|]. apply enrol_role.
Qed.

Lemma changeRole_replaces_one_entry_witness :
  (users (after (take 3 main_requests) fresh_manager) !! "Bob"
     = Some (Moderator "Bob") ∧
   ADMIN_ROLE ≠ role_of (Moderator "Bob")) ∧
  (changeRole "Bob" ADMIN_ROLE
     (after (take 3 main_requests) fresh_manager)).1.1 = true ∧
  dom (users (changeRole "Bob" ADMIN_ROLE
                (after (take 3 main_requests) fresh_manager)).1.2)
    = dom (users (after (take 3 main_requests) fresh_manager)) ∧
  (∀ k, k ≠ "Bob" →
        users (changeRole "Bob" ADMIN_ROLE
                 (after (take 3 main_requests) fresh_manager)).1.2 !! k
        = users (after (take 3 main_requests) fresh_manager) !! k) ∧
  ∃ v, users (changeRole "Bob" ADMIN_ROLE
                (after (take 3 main_requests) fresh_manager)).1.2 !! "Bob"
       = Some v ∧ role_of v = ADMIN_ROLE ∧ name v = "Bob".
Proof.
  split; [split; [reflexivity | discriminate]|].
  apply (changeRole_replaces_one_entry
           (after (take 3 main_requests) fresh_manager) "Bob"
           (Moderator "Bob") ADMIN_ROLE); [reflexivity | discriminate].
Defined.
End SocialNetFacts.

(** * Properties of the payment tracker *)

Module PaymentGatewayFacts.
Import PaymentGateway.

Section Amount.
Context {amount : Type}.
Context (nonpositive : amount -> bool) (show_amount : amount -> string).

Local Abbreviation start := (startPaymentProcess nonpositive show_amount).
Local Abbreviation run_all := (after nonpositive show_amount).

Lemma start_accepted (g : Gateway) a draw m :
  nonpositive a = false →
  ∃ id out,
    start (Listed g) a draw m
    = (getGatewayName (mkBasePayment g a id PROCESSING) +:+ "_" +:+ id,
       mkPaymentManager
         (<[getGatewayName (mkBasePayment g a id PROCESSING) +:+ "_" +:+ id
            := mkBasePayment g a id PROCESSING]> (payments m)),
       out)
    ∧ id = generateTransactionId draw
             (match g with VISA => "VISA_" | MASTERCARD => "MC_" end).
Proof.
  intros Ha. unfold startPaymentProcess. rewrite Ha.
  destruct g; simpl; eauto.
Qed.

Lemma start_rejected g a draw m :
  nonpositive a = true →
  start g a draw m
  = ("", m, [line "Error: Invalid payment amount. Amount must be greater than 0."]).
Proof. intros Ha. unfold startPaymentProcess. by rewrite Ha. Qed.

Lemma start_unsupported a draw m :
  nonpositive a = false →
  start Unlisted a draw m = ("", m, [line "Error: Unsupported payment gateway."]).
Proof. intros Ha. unfold startPaymentProcess. by rewrite Ha. Qed.

Lemma serve_Registered r m :
  Registered nonpositive m → Registered nonpositive (serve nonpositive show_amount r m).
Proof.
  intros Hm. destruct r as [gv a draw|key|key newStatus]; simpl.
  - destruct (nonpositive a) eqn:Ha.
    + by rewrite start_rejected.
    + destruct gv as [g|]; [|by rewrite start_unsupported].
      destruct (start_accepted g a draw m Ha) as (id & out & -> & _). simpl.
      intros key p. simpl. rewrite lookup_insert. case_decide as Hk.
      * intros [= <-]. by subst key.
      * apply Hm.
  - done.
  - unfold updatePaymentStatus. by destruct (payments m !! key).
Qed.

Lemma after_Registered rs m :
  Registered nonpositive m → Registered nonpositive (run_all rs m).
Proof.
  revert m. induction rs as [|r rs IH]; intros m Hm; [done|].
  apply IH. by apply serve_Registered.
Qed.

Lemma key_nonempty g (id : string) (a : amount) :
  getGatewayName (mkBasePayment g a id PROCESSING) +:+ "_" +:+ id ≠ "".
Proof. by destruct g. Qed.
End Amount.

(** The first two payments of [main], for draws 123456 and 654321, and the
    rejected third. *)
Example main_payments :
  (startPaymentProcess cents_nonpositive cents_show (Listed VISA) 50075 123456
     fresh_manager).1.1 = "VISA_VISA_123456"
  ∧ (startPaymentProcess cents_nonpositive cents_show (Listed MASTERCARD) 125000 654321
       fresh_manager).1.1 = "MASTERCARD_MC_654321"
  ∧ (startPaymentProcess cents_nonpositive cents_show (Listed VISA) (-10000) 111111
       fresh_manager).1.1 = "".
Proof. by vm_compute. Qed.

(** X13. No call ever completes a payment: after any sequence of
    [startPaymentProcess], [getPaymentStatus] and [updatePaymentStatus] calls
    on a fresh manager, every stored payment still has status [PROCESSING]
    (whatever status [updatePaymentStatus] was given), has an amount that
    passed the [amount <= 0] test, and sits under the key made of its
    gateway name, an underscore and its transaction id. *)
Theorem stored_payments_stay_processing {amount : Type}
    (nonpositive : amount → bool) (show_amount : amount → string)
    (rs : list request) (key : string) (p : BasePayment) :
  payments (after nonpositive show_amount rs fresh_manager) !! key = Some p →
  getStatus p = PROCESSING ∧ nonpositive (getAmount p) = false ∧
  key = getGatewayName p +:+ "_" +:+ getTransactionId p.
Proof.
  apply (after_Registered nonpositive show_amount rs fresh_manager).
  intros k q Hk. simpl in Hk. by rewrite lookup_empty in Hk.
Qed.

Lemma stored_payments_stay_processing_witness :
  payments
    (after cents_nonpositive cents_show
       [StartPaymentProcess (Listed VISA) 50075 123456;
        UpdatePaymentStatus "VISA_VISA_123456" SUCCESS]
       fresh_manager) !! "VISA_VISA_123456"
    = Some (mkBasePayment VISA 50075 "VISA_123456" PROCESSING) ∧
  getStatus (mkBasePayment VISA 50075 "VISA_123456" PROCESSING) = PROCESSING ∧
  cents_nonpositive (getAmount (mkBasePayment VISA 50075 "VISA_123456" PROCESSING))
    = false ∧
  "VISA_VISA_123456"
    = getGatewayName (mkBasePayment VISA 50075 "VISA_123456" PROCESSING) +:+ "_"
      +:+ getTransactionId (mkBasePayment VISA 50075 "VISA_123456" PROCESSING).
Proof.
  split; [reflexivity|].
  apply (stored_payments_stay_processing cents_nonpositive cents_show
           [StartPaymentProcess (Listed VISA) 50075 123456;
            UpdatePaymentStatus "VISA_VISA_123456" SUCCESS]).
  reflexivity.
Defined.

(** X14. The three outcomes of [startPaymentProcess]: when [amount <= 0] it
    returns the empty string, prints the amount error and leaves the payments
    as they were; otherwise, for a gateway that is not one of the enumerators,
    it returns the empty string, prints the gateway error and leaves the
    payments as they were; otherwise it returns a non-empty key under which
    the payment is stored with the gateway and amount given and status
    [PROCESSING], every other key being as before. *)
Theorem startPaymentProcess_outcome {amount : Type}
    (nonpositive : amount → bool) (show_amount : amount → string)
    (gv : GatewayValue) (a : amount) (draw : Z) (m : PaymentManager) :
  if nonpositive a then
    startPaymentProcess nonpositive show_amount gv a draw m
    = ("", m,
       [line "Error: Invalid payment amount. Amount must be greater than 0."])
  else
    match gv with
    | Unlisted =>
        startPaymentProcess nonpositive show_amount gv a draw m
        = ("", m, [line "Error: Unsupported payment gateway."])
    | Listed g =>
        (startPaymentProcess nonpositive show_amount gv a draw m).1.1 ≠ "" ∧
        (∃ p, payments (startPaymentProcess nonpositive show_amount gv a draw m).1.2
                !! (startPaymentProcess nonpositive show_amount gv a draw m).1.1
              = Some p ∧
              made_for p = g ∧ getAmount p = a ∧ getStatus p = PROCESSING) ∧
        ∀ k, k ≠ (startPaymentProcess nonpositive show_amount gv a draw m).1.1 →
             payments (startPaymentProcess nonpositive show_amount gv a draw m).1.2
               !! k = payments m !! k
    end.
Proof.
  destruct (nonpositive a) eqn:Ha.
  - by apply start_rejected.
  - destruct gv as [g|]; [|by apply start_unsupported].
    destruct (start_accepted nonpositive show_amount g a draw m Ha)
      as (id & out & -> & _).
    simpl. split; [apply key_nonempty|]. split.
    + eexists. by rewrite lookup_insert_eq.
    + intros k Hk. by rewrite lookup_insert_ne.
Qed.

(** X15. Two accepted payments get the same key exactly when they go
    through the same gateway and draw the same number. *)
Theorem keys_collide_iff {amount : Type}
    (nonpositive : amount → bool) (show_amount : amount → string)
    (g1 g2 : Gateway) (a1 a2 : amount) (d1 d2 : Z) (m1 m2 : PaymentManager) :
  nonpositive a1 = false → nonpositive a2 = false →
  (startPaymentProcess nonpositive show_amount (Listed g1) a1 d1 m1).1.1
  = (startPaymentProcess nonpositive show_amount (Listed g2) a2 d2 m2).1.1
  ↔ g1 = g2 ∧ d1 = d2.
Proof.
  intros H1 H2.
  destruct (start_accepted nonpositive show_amount g1 a1 d1 m1 H1)
    as (id1 & out1 & -> & ->).
  destruct (start_accepted nonpositive show_amount g2 a2 d2 m2 H2)
    as (id2 & out2 & -> & ->).
  unfold generateTransactionId. split.
  - destruct g1, g2; intros Heq; simpl in Heq; try discriminate;
      cbv [getGatewayName made_for String.app] in Heq;
      repeat match type of Heq with
             | String _ _ = String _ _ => injection Heq as Heq
             end;
      (split; [done | by apply (inj pretty)]).
  - by intros [-> ->].
Qed.

Lemma keys_collide_iff_witness :
  (cents_nonpositive 50075 = false ∧ cents_nonpositive 125000 = false) ∧
  ((startPaymentProcess cents_nonpositive cents_show (Listed VISA) 50075 123456
      fresh_manager).1.1
   = (startPaymentProcess cents_nonpositive cents_show (Listed VISA) 125000 123456
        fresh_manager).1.1
   ↔ VISA = VISA ∧ 123456 = 123456).
Proof.
  split; [split; reflexivity|].
  apply (keys_collide_iff cents_nonpositive cents_show VISA VISA 50075 125000
           123456 123456 fresh_manager fresh_manager); reflexivity.
Defined.

(** X16. A colliding payment replaces the earlier one: when two accepted
    payments go through the same gateway with the same draw, the manager
    after both is the manager after the second alone; the first payment is
    no longer stored. *)
Theorem colliding_payment_overwrites {amount : Type}
    (nonpositive : amount → bool) (show_amount : amount → string)
    (g : Gateway) (a1 a2 : amount) (draw : Z) (m : PaymentManager) :
  nonpositive a1 = false → nonpositive a2 = false →
  (startPaymentProcess nonpositive show_amount (Listed g) a2 draw
     (startPaymentProcess nonpositive show_amount (Listed g) a1 draw m).1.2).1.2
  = (startPaymentProcess nonpositive show_amount (Listed g) a2 draw m).1.2.
Proof.
  intros H1 H2. unfold startPaymentProcess. rewrite H1, H2.
  destruct g; simpl; f_equal; apply insert_insert_eq.
Qed.

Lemma colliding_payment_overwrites_witness :
  (cents_nonpositive 50075 = false ∧ cents_nonpositive 125000 = false) ∧
  (startPaymentProcess cents_nonpositive cents_show (Listed VISA) 125000 123456
     (startPaymentProcess cents_nonpositive cents_show (Listed VISA) 50075 123456
        fresh_manager).1.2).1.2
  = (startPaymentProcess cents_nonpositive cents_show (Listed VISA) 125000 123456
       fresh_manager).1.2.
Proof.
  split; [split; reflexivity|].
  apply (colliding_payment_overwrites cents_nonpositive cents_show VISA
           50075 125000 123456 fresh_manager); reflexivity.
Defined.
End PaymentGatewayFacts.
